(** * Saga orchestrator (src/index.ts): shallow embedding and verified properties

    The TypeScript class [Saga<T>] keeps an array of transactions, runs their
    [execute] functions in order on a threaded value [args] and, when one of
    them rejects, runs the [compensate] functions of the earlier ones in
    reverse order, swallowing what they throw, and resolves to [err] of the
    first error.

    The embedding keeps the shape of the source:
    - a Saga is an object on a heap, addressed by a reference, so that
      [addTransaction] mutates it in place and returns the same reference;
    - the functions of a transaction are closures of the caller: they take the
      threaded value, may act on an outside world [W], may call the public
      [addTransaction] on any saga they hold, the running one included, and
      settle as fulfilled or rejected;
    - the methods are written in a small state-and-exception monad with an
      explicit try/catch, so that an exception which the source does not catch
      would leave the method as an exception in the model too;
    - every call of a transaction function is recorded in a call log. *)

From Stdlib Require Import String ZArith.
From stdpp Require Import base option list gmap.

Set Default Proof Using "Type".
Set Warnings "-register-all".

(** ** neverthrow's [Result] *)

Inductive Result (A E : Type) : Type :=
| ok (value : A)
| err (error : E).
Arguments ok {A E} value.
Arguments err {A E} error.

(** ** Promises of the caller's functions *)

(** How the promise returned by a transaction function settles. A function
    that throws before returning a promise is seen by [await] inside [try]
    exactly like a rejected promise, so both are [Rejected]. *)
Inductive settled (T E : Type) : Type :=
| Fulfilled (value : T)
| Rejected (reason : E).
Arguments Fulfilled {T E} value.
Arguments Rejected {T E} reason.

(** References to Saga objects. *)
Definition loc : Type := nat.

(** A call [target.addTransaction(transaction)] made by a transaction
    function while it runs. The function may pass any transaction it holds,
    or the transaction object it belongs to ([RegisterSelf]), as in
    [const t = { execute: async x => { saga.addTransaction(t); return x }, ... }]. *)
Inductive registration (A : Type) : Type :=
| Register (target : loc) (transaction : A)
| RegisterSelf (target : loc).
Arguments Register {A} target transaction.
Arguments RegisterSelf {A} target.

(** ** [ITransaction<T>] *)

(** A function of a transaction gives, on the threaded value and the world:
    how its promise settles, the world it leaves, and the [addTransaction]
    calls it has made, in the order in which it made them. *)
Module ITransaction.
Inductive t (T E W : Type) : Type := Build {
  name : string;
  execute : T -> W -> settled T E * W * list (registration (t T E W));
  compensate : T -> W -> settled T E * W * list (registration (t T E W))
}.
Arguments Build {T E W} name execute compensate.
Arguments name {T E W} _.
Arguments execute {T E W} _ _ _.
Arguments compensate {T E W} _ _ _.
End ITransaction.

(** ** Objects, call log and machine state *)

(** The fields of a [Saga<T>] object: [private _transactions: ITransaction<T>[]]. *)
Record SagaObject (T E W : Type) : Type := MkSaga {
  _transactions : list (ITransaction.t T E W)
}.
Arguments MkSaga {T E W} _transactions.
Arguments _transactions {T E W} _.

(** Which function of a transaction a call went to. *)
Inductive method : Type := Execute | Compensate.

(** One entry of the call log: the function called, the index of its
    transaction in [_transactions], the argument and how the call settled. *)
Record call (T E : Type) : Type := Call {
  call_method : method;
  call_index : nat;
  call_args : T;
  call_settled : settled T E
}.
Arguments Call {T E} call_method call_index call_args call_settled.
Arguments call_method {T E} _.
Arguments call_index {T E} _.
Arguments call_args {T E} _.
Arguments call_settled {T E} _.

(** The function and the index of a call, without its values. *)
Definition call_site {T E : Type} (c : call T E) : method * nat :=
  (call_method c, call_index c).

Record machine (T E W : Type) : Type := Machine {
  heap : gmap loc (SagaObject T E W);
  world : W;
  calls : list (call T E)
}.
Arguments Machine {T E W} heap world calls.
Arguments heap {T E W} _.
Arguments world {T E W} _.
Arguments calls {T E W} _.

(** ** The monad of method bodies *)

(** How a computation ends: with a value, with an exception, or, in the model
    only, because a loop was given too few iterations. *)
Inductive completion (E A : Type) : Type :=
| Normal (value : A)
| Throw (exn : E)
| OutOfFuel.
Arguments Normal {E A} value.
Arguments Throw {E A} exn.
Arguments OutOfFuel {E A}.

(** How a [for] loop that contains a [return] statement is left. *)
Inductive loop_exit (A R : Type) : Type :=
| Fallthrough (vars : A)
| Return (value : R).
Arguments Fallthrough {A R} vars.
Arguments Return {A R} value.

Section Monad.
Context {T E W : Type}.

Definition M (A : Type) : Type :=
  machine T E W -> completion E A * machine T E W.

Definition ret {A} (a : A) : M A := fun m => (Normal a, m).

Definition bind {A B} (c : M A) (k : A -> M B) : M B :=
  fun m =>
    match c m with
    | (Normal a, m') => k a m'
    | (Throw e, m') => (Throw e, m')
    | (OutOfFuel, m') => (OutOfFuel, m')
    end.

Definition throw {A} (e : E) : M A := fun m => (Throw e, m).

Definition out_of_fuel {A} : M A := fun m => (OutOfFuel, m).

(** [try { x = body } catch (e) { handler e }; rest x]: an exception of
    [body] goes to [handler]; exceptions of [handler] and of [rest] are not
    caught here. *)
Definition try_catch {A B} (body : M A) (rest : A -> M B) (handler : E -> M B) : M B :=
  fun m =>
    match body m with
    | (Normal a, m') => rest a m'
    | (Throw e, m') => handler e m'
    | (OutOfFuel, m') => (OutOfFuel, m')
    end.

(** The function of transaction [t] that a call goes to. *)
Definition function_of (meth : method) (t : ITransaction.t T E W)
    : T -> W -> settled T E * W * list (registration (ITransaction.t T E W)) :=
  match meth with
  | Execute => ITransaction.execute t
  | Compensate => ITransaction.compensate t
  end.

(** The saga and the transaction of an [addTransaction] call made by a
    function of the transaction [self]. *)
Definition resolve (self : ITransaction.t T E W)
    (r : registration (ITransaction.t T E W)) : loc * ITransaction.t T E W :=
  match r with
  | Register l t => (l, t)
  | RegisterSelf l => (l, self)
  end.

(** What [l.addTransaction(t)] does to the heap: [_transactions.push(t)]. *)
Definition push (p : loc * ITransaction.t T E W)
    (h : gmap loc (SagaObject T E W)) : gmap loc (SagaObject T E W) :=
  match h !! p.1 with
  | Some o => <[p.1 := MkSaga (_transactions o ++ [p.2])]> h
  | None => h
  end.

Definition push_all (ps : list (loc * ITransaction.t T E W))
    (h : gmap loc (SagaObject T E W)) : gmap loc (SagaObject T E W) :=
  foldl (fun h p => push p h) h ps.

(** [await f(args)], where [f] is function [meth] of the transaction [t] at
    index [i]: the function runs on the world, its [addTransaction] calls
    take effect on the heap, the call is logged, and a rejection becomes an
    exception at the [await]. *)
Definition await (meth : method) (i : nat) (t : ITransaction.t T E W) (args : T) : M T :=
  fun m =>
    let '(s, w', regs) := function_of meth t args (world m) in
    let m' := Machine (push_all (resolve t <$> regs) (heap m)) w'
                      (calls m ++ [Call meth i args s]) in
    match s with
    | Fulfilled v => (Normal v, m')
    | Rejected e => (Throw e, m')
    end.
End Monad.
Arguments M : clear implicits.

Notation "'let*' x ':=' c 'in' k" := (bind c (fun x => k))
  (at level 10, x name, c at level 100, k at level 200, only parsing).

(** ** The class [Saga<T>] *)

Module Saga.
Section Saga.
Context {T E W : Type}.

(** What the runtime throws when a property of [undefined] is read. *)
Variable type_error : E.

Abbreviation tx := (ITransaction.t T E W).

(** [this._transactions] *)
Definition get_transactions (this : loc) : M T E W (list tx) :=
  fun m =>
    match heap m !! this with
    | Some o => (Normal (_transactions o), m)
    | None => (Throw type_error, m)
    end.

(** [this._transactions[i]], followed by the read of one of its properties:
    an index outside the array gives [undefined], and reading a property of
    [undefined] throws. *)
Definition get_transaction (this : loc) (i : nat) : M T E W tx :=
  let* txs := get_transactions this in
  match txs !! i with
  | Some t => ret t
  | None => throw type_error
  end.

(** [static new<T>(): Saga<T>]: a fresh object with an empty array. *)
Definition new : M T E W loc :=
  fun m =>
    let this := fresh (dom (heap m)) in
    (Normal this, Machine (<[this := MkSaga []]> (heap m)) (world m) (calls m)).

(** [addTransaction]: [this._transactions.push(transaction); return this]. *)
Definition addTransaction (this : loc) (transaction : tx) : M T E W loc :=
  fun m =>
    match heap m !! this with
    | Some o =>
        (Normal this,
         Machine (<[this := MkSaga (_transactions o ++ [transaction])]> (heap m))
                 (world m) (calls m))
    | None => (Throw type_error, m)
    end.

(** The loop of [_startCompensate], entered with [i = idx - 1]: it runs
    while [i >= 0], so it has an iteration exactly when [idx] is a
    successor, and the iteration with [i] is followed by the loop entered
    with [idx := i]. The whole statement
    [args = await this._transactions[i].compensate(args)] is inside [try];
    the [catch] block is empty, so after an exception the loop goes on with
    [args] as it was. The loop yields the last value of [args]. *)
Fixpoint _startCompensate_for (this : loc) (idx : nat) (args : T) : M T E W T :=
  match idx with
  | O => ret args
  | S i =>
      try_catch
        (let* t := get_transaction this i in
         await Compensate i t args)
        (fun args' => _startCompensate_for this i args')
        (fun _ => _startCompensate_for this i args)
  end.

(** [private async _startCompensate(idx, args, error)] *)
Definition _startCompensate (this : loc) (idx : nat) (args : T) (error : E)
    : M T E W (Result unit E) :=
  let* _ := _startCompensate_for this idx args in
  ret (err error).

(** The loop of [execute] from index [i] on. Each iteration reads
    [this._transactions.length] again; [const { execute } =
    this._transactions[i]] is outside [try]; the [catch] block returns from
    the method with what [_startCompensate] gives. [fuel] bounds the number
    of iterations. The loop is left either past its end, yielding the last
    value of [args], or by that [return]. *)
Fixpoint execute_for (fuel : nat) (this : loc) (i : nat) (args : T)
    : M T E W (loop_exit T (Result unit E)) :=
  let* txs := get_transactions this in
  if i <? length txs then
    match fuel with
    | O => out_of_fuel
    | S fuel' =>
        let* t := get_transaction this i in
        try_catch
          (await Execute i t args)
          (fun args' => execute_for fuel' this (S i) args')
          (fun e =>
             let* r := _startCompensate this i args e in
             ret (Return r))
    end
  else ret (Fallthrough args).

(** [async execute(args: T): TAsyncResult<void, Error>] *)
Definition execute (fuel : nat) (this : loc) (args : T) : M T E W (Result unit E) :=
  let* exit := execute_for fuel this 0 args in
  match exit with
  | Return r => ret r
  | Fallthrough _ => ret (ok tt)
  end.
End Saga.
End Saga.

(** ** Specification-level notions *)

Section Notions.
Context {T E W : Type}.

Abbreviation tx := (ITransaction.t T E W).

(** The forward pass as a left fold over the list of transactions: either
    every [execute] is fulfilled, and the fold gives the last value and
    world, or the one at index [k] is the first to be rejected, with reason
    [e], on the value [args] (the world is the one it leaves). [i] is the
    index of the head of the list. *)
Inductive pass : Type :=
| Completed (args : T) (w : W)
| FailedAt (k : nat) (e : E) (args : T) (w : W).

Fixpoint forward_pass (txs : list tx) (i : nat) (args : T) (w : W) : pass :=
  match txs with
  | [] => Completed args w
  | t :: rest =>
      match ITransaction.execute t args w with
      | (Fulfilled args', w', _) => forward_pass rest (S i) args' w'
      | (Rejected e, w', _) => FailedAt i e args w'
      end
  end.


(** The value of the variable [args] after a call made on it: an
    assignment [args = await f(args)] changes it only when the promise is
    fulfilled. *)
Definition next_args (args : T) (c : call T E) : T :=
  match call_settled c with
  | Fulfilled v => v
  | Rejected _ => args
  end.

(** The calls [cs] were made one after the other on the variable [args]:
    each call receives its current value. *)
Fixpoint threaded (args : T) (cs : list (call T E)) : Prop :=
  match cs with
  | [] => True
  | c :: cs' => call_args c = args /\ threaded (next_args args c) cs'
  end.

(** Fluent chaining: [s.addTransaction(t1).addTransaction(t2)...], each call
    made on what the previous one returned. *)
Fixpoint chain (type_error : E) (this : loc) (ts : list tx) : M T E W loc :=
  match ts with
  | [] => ret this
  | t :: rest =>
      let* this' := Saga.addTransaction type_error this t in
      chain type_error this' rest
  end.

(** A call whose promise was fulfilled. *)
Definition fulfilled (c : call T E) : Prop :=
  exists v, call_settled c = Fulfilled v.

(** Two transactions with the same [execute] and the same [compensate],
    whatever their [name]s. *)
Definition same_functions (t t' : tx) : Prop :=
  ITransaction.execute t = ITransaction.execute t' /\
  ITransaction.compensate t = ITransaction.compensate t'.

(** Two heaps with the same sagas, holding position by position
    transactions with the same functions. *)
Definition same_sagas (h h' : gmap loc (SagaObject T E W)) : Prop :=
  forall l,
    option_Forall2
      (fun o o' => Forall2 same_functions (_transactions o) (_transactions o'))
      (h !! l) (h' !! l).

(** [const s1 = Saga.new(); const s2 = Saga.new(); s1.addTransaction(t)] *)
Definition two_sagas (type_error : E) (t : tx) : M T E W (loc * loc) :=
  let* s1 := Saga.new in
  let* s2 := Saga.new in
  let* _ := Saga.addTransaction type_error s1 t in
  ret (s1, s2).

(** [this.addTransaction(t).execute(args)] *)
Definition add_then_execute (type_error : E) (fuel : nat) (this : loc) (t : tx) (args : T)
    : M T E W (Result unit E) :=
  let* s := Saga.addTransaction type_error this t in
  Saga.execute type_error fuel s args.

(** The saga on which a registration is made. *)
Definition target {A : Type} (r : registration A) : loc :=
  match r with
  | Register l _ => l
  | RegisterSelf l => l
  end.

(** A transaction none of whose functions ever calls [addTransaction] on the
    saga [this]. *)
Definition quiet (this : loc) (t : tx) : Prop :=
  forall args w,
    Forall (fun r => target r <> this) (ITransaction.execute t args w).2 /\
    Forall (fun r => target r <> this) (ITransaction.compensate t args w).2.

(** What the forward pass over a list of transactions does besides
    threading the value: the calls it makes, with their arguments and
    outcomes, up to and with the first rejected one, and the
    [addTransaction] calls that these functions make, in order. *)
Record trace : Type := Trace {
  trace_calls : list (call T E);
  trace_pushes : list (loc * tx)
}.

Fixpoint forward_trace (txs : list tx) (i : nat) (args : T) (w : W) : trace :=
  match txs with
  | [] => Trace [] []
  | t :: rest =>
      let '(s, w', regs) := ITransaction.execute t args w in
      let later :=
        match s with
        | Fulfilled args' => forward_trace rest (S i) args' w'
        | Rejected _ => Trace [] []
        end in
      Trace (Call Execute i args s :: trace_calls later)
            ((resolve t <$> regs) ++ trace_pushes later)
  end.

(** The compensation pass as a fold over the transactions to undo, given
    last registered first (so the head of [ts] has index [length ts - 1]):
    the compensate function of each is applied to the current value; a
    fulfilled one gives the next value, a rejected one leaves the value as it
    is; the fold goes on in both cases. It gives the calls, the
    [addTransaction] calls made by these functions, the last value and the
    world. *)
Record unwind : Type := Unwind {
  unwind_calls : list (call T E);
  unwind_pushes : list (loc * tx);
  unwind_args : T;
  unwind_world : W
}.

Fixpoint compensation_pass (ts : list tx) (args : T) (w : W) : unwind :=
  match ts with
  | [] => Unwind [] [] args w
  | t :: rest =>
      let '(s, w', regs) := ITransaction.compensate t args w in
      let later :=
        compensation_pass rest
          (match s with Fulfilled v => v | Rejected _ => args end) w' in
      Unwind (Call Compensate (length rest) args s :: unwind_calls later)
             ((resolve t <$> regs) ++ unwind_pushes later)
             (unwind_args later) (unwind_world later)
  end.
End Notions.

(** ** Concrete transactions

    The threaded value is a number; the scenario only meets integers, on which
    the source's [x / 2] is the exact half when [x] is even, as it is for the
    value 8 reached here. *)

Module Scenario.
Local Open Scope Z_scope.
Local Open Scope string_scope.

Definition action : Type :=
  Z -> unit -> settled Z string * unit * list (registration (ITransaction.t Z string unit)).

Definition type_error : string := "TypeError".

(** A: forward [x => x + 1], compensate [x => x - 1]. *)
Definition A : ITransaction.t Z string unit :=
  ITransaction.Build "A"
    (fun x w => (Fulfilled (x + 1), w, []))
    (fun x w => (Fulfilled (x - 1), w, [])).

(** B: forward [x => x * 2], compensate [x => x / 2]. *)
Definition B : ITransaction.t Z string unit :=
  ITransaction.Build "B"
    (fun x w => (Fulfilled (x * 2), w, []))
    (fun x w => (Fulfilled (x / 2), w, [])).

(** C: forward always rejects with [e]; its compensate is left open. *)
Definition C (e : string) (undo : action) : ITransaction.t Z string unit :=
  ITransaction.Build "C" (fun x w => (Rejected e, w, [])) undo.

(** A variant of B whose compensate rejects. *)
Definition B_stuck : ITransaction.t Z string unit :=
  ITransaction.Build "B"
    (fun x w => (Fulfilled (x * 2), w, []))
    (fun x w => (Rejected "cannot undo B", w, [])).

Definition keep : action := fun x w => (Fulfilled x, w, []).

(** A step whose forward action registers the step [A] on the saga at
    reference 0: [execute: async x => { saga.addTransaction(A); return x }]. *)
Definition grow : ITransaction.t Z string unit :=
  ITransaction.Build "grow" (fun x w => (Fulfilled x, w, [Register 0%nat A])) keep.


(** The machine before anything is built. *)
Definition start : machine Z string unit := Machine ∅ tt [].

(** A machine whose only object, at reference 0, holds [ts]. *)
Definition built (ts : list (ITransaction.t Z string unit)) : machine Z string unit :=
  Machine {[ 0%nat := MkSaga ts ]} tt [].

(** Step lists used as concrete instances. *)
Definition plain : list (ITransaction.t Z string unit) := [A; B; C "E" keep].
Definition stuck : list (ITransaction.t Z string unit) := [A; B_stuck; C "E" keep].
Definition forward_only : list (ITransaction.t Z string unit) := [A; B].
Definition fails_first : list (ITransaction.t Z string unit) := [C "E" keep; A].

(** The steps of [stuck] under other names. *)
Definition stuck_renamed : list (ITransaction.t Z string unit) :=
  [ ITransaction.Build "deposit" (ITransaction.execute A) (ITransaction.compensate A);
    ITransaction.Build "double" (ITransaction.execute B_stuck) (ITransaction.compensate B_stuck);
    ITransaction.Build "deposit" (ITransaction.execute (C "E" keep)) keep ].

(** [Saga.new().addTransaction(A).addTransaction(B).addTransaction(C).execute(3)] *)
Definition run (e : string) (undo : action) (fuel : nat) : M Z string unit (Result unit string) :=
  let* s := Saga.new in
  let* s := chain type_error s [A; B; C e undo] in
  Saga.execute type_error fuel s 3.
End Scenario.

(** ** Lemmas on the notions *)

Section NotionLemmas.
Context {T E W : Type}.
Implicit Types (t : ITransaction.t T E W) (txs ts : list (ITransaction.t T E W)).
Implicit Types (cs : list (call T E)) (args : T) (w : W).
Implicit Types (h : gmap loc (SagaObject T E W)) (ps : list (loc * ITransaction.t T E W)).

(** Consecutive calls of a threaded log: the later one receives what the
    earlier one left in [args]. *)
Lemma threaded_lookup args cs n c c' :
  threaded args cs -> cs !! n = Some c -> cs !! S n = Some c' ->
  call_args c' = next_args (call_args c) c.
Proof.
  revert args n. induction cs as [|c0 cs IH]; intros args n Hth Hc Hc'.
  - discriminate.
  - destruct Hth as [Ha Hth]. destruct n as [|n]; simpl in *.
    + injection Hc as ->. destruct cs as [|c1 cs]; [discriminate|].
      injection Hc' as ->. destruct Hth as [-> _]. by rewrite Ha.
    + eapply IH; eauto.
Qed.

Lemma forward_pass_app txs1 txs2 i args w :
  forward_pass (txs1 ++ txs2) i args w =
  match forward_pass txs1 i args w with
  | Completed args' w' => forward_pass txs2 (i + length txs1) args' w'
  | FailedAt k e a w' => FailedAt k e a w'
  end.
Proof.
  revert i args w. induction txs1 as [|t txs1 IH]; intros i args w; simpl.
  - by rewrite Nat.add_0_r.
  - destruct (ITransaction.execute t args w) as [[[v|e] w'] regs]; [|done].
    rewrite IH. by replace (S i + length txs1) with (i + S (length txs1)) by lia.
Qed.

(** What [FailedAt] says: the transaction at [k] exists, the ones before it
    were fulfilled one after the other and left [a], and the one at [k] is
    rejected on [a] with [e]. *)
Lemma forward_pass_failed txs i args w k e a w' :
  forward_pass txs i args w = FailedAt k e a w' ->
  i <= k /\ exists t w1 regs,
    txs !! (k - i) = Some t /\
    forward_pass (take (k - i) txs) i args w = Completed a w1 /\
    ITransaction.execute t a w1 = (Rejected e, w', regs).
Proof.
  revert i args w. induction txs as [|t txs IH]; intros i args w; simpl.
  - discriminate.
  - destruct (ITransaction.execute t args w) as [[[v|e0] w0] regs0] eqn:Hrun.
    + intros H. destruct (IH _ _ _ H) as (Hle & t' & w1 & regs & Hl & Hp & Hr).
      split; [lia|]. exists t', w1, regs.
      replace (k - i) with (S (k - S i)) by lia. simpl. by rewrite Hrun.
    + intros [= -> -> -> ->]. split; [lia|]. exists t, w, regs0.
      rewrite Nat.sub_diag. simpl. done.
Qed.


(** *** Registrations on the heap *)

Lemma resolve_target t (r : registration (ITransaction.t T E W)) :
  (resolve t r).1 = target r.
Proof. by destruct r. Qed.

Lemma push_all_app ps1 ps2 h :
  push_all (ps1 ++ ps2) h = push_all ps2 (push_all ps1 h).
Proof. apply foldl_app. Qed.

Lemma push_other p h l : p.1 <> l -> push p h !! l = h !! l.
Proof.
  intros Hl. unfold push. destruct (h !! p.1); [|done].
  by rewrite lookup_insert_ne.
Qed.

Lemma push_all_other ps h l :
  Forall (fun p => p.1 <> l) ps -> push_all ps h !! l = h !! l.
Proof.
  intros H. revert h. induction H as [|p ps Hp _ IH]; intros h; [done|].
  simpl. by rewrite IH, push_other.
Qed.

(** Registrations only append: a list that starts with [txs] still does
    after them. *)
Lemma push_prefix p h l txs extra :
  h !! l = Some (MkSaga (txs ++ extra)) ->
  exists extra', push p h !! l = Some (MkSaga (txs ++ extra')).
Proof.
  intros Hl. destruct (decide (p.1 = l)) as [Heq|Hne].
  - unfold push. rewrite Heq, Hl. simpl. exists (extra ++ [p.2]).
    by rewrite lookup_insert_eq, app_assoc.
  - exists extra. by rewrite push_other.
Qed.

Lemma push_all_prefix ps h l txs extra :
  h !! l = Some (MkSaga (txs ++ extra)) ->
  exists extra', push_all ps h !! l = Some (MkSaga (txs ++ extra')).
Proof.
  revert h extra. induction ps as [|p ps IH]; intros h extra Hl; [by exists extra|].
  destruct (push_prefix p h l txs extra Hl) as [extra1 H1].
  simpl. by apply (IH _ extra1).
Qed.

Lemma push_all_grows ps h l (o : SagaObject T E W) :
  h !! l = Some o ->
  exists o', push_all ps h !! l = Some o' /\
    length (_transactions o) <= length (_transactions o').
Proof.
  intros Hl. destruct o as [txs].
  destruct (push_all_prefix ps h l txs []) as [extra H]; [by rewrite app_nil_r|].
  eexists. split; [exact H|]. simpl. rewrite length_app. lia.
Qed.

(** *** The calls of the two folds *)

Lemma forward_trace_completed txs i args w s w' :
  forward_pass txs i args w = Completed s w' ->
  call_site <$> trace_calls (forward_trace txs i args w) =
    (fun j => (Execute, j)) <$> seq i (length txs) /\
  Forall fulfilled (trace_calls (forward_trace txs i args w)) /\
  threaded args (trace_calls (forward_trace txs i args w)) /\
  foldl next_args args (trace_calls (forward_trace txs i args w)) = s.
Proof.
  revert i args w. induction txs as [|t txs IH]; intros i args w;
    cbn [forward_pass forward_trace].
  - intros [= <- <-]. by split_and!.
  - destruct (ITransaction.execute t args w) as [[[v|e] w0] regs];
      cbn [trace_calls]; [|done].
    intros H. destruct (IH _ _ _ H) as (Hs & Hful & Hth & Hfin).
    split_and!.
    + by rewrite fmap_cons, Hs.
    + constructor; [by eexists|done].
    + split; [done|exact Hth].
    + exact Hfin.
Qed.

Lemma forward_trace_failed txs i args w k e a w' :
  forward_pass txs i args w = FailedAt k e a w' ->
  exists pre,
    trace_calls (forward_trace txs i args w) = pre ++ [Call Execute k a (Rejected e)] /\
    call_site <$> pre = (fun j => (Execute, j)) <$> seq i (k - i) /\
    Forall fulfilled pre /\
    threaded args (pre ++ [Call Execute k a (Rejected e)]).
Proof.
  revert i args w. induction txs as [|t txs IH]; intros i args w;
    cbn [forward_pass forward_trace].
  - discriminate.
  - destruct (ITransaction.execute t args w) as [[[v|e0] w0] regs];
      cbn [trace_calls].
    + intros H. pose proof (forward_pass_failed _ _ _ _ _ _ _ _ H) as [Hle _].
      destruct (IH _ _ _ H) as (pre & Hcs & Hs & Hful & Hth).
      exists (Call Execute i args (Fulfilled v) :: pre). rewrite Hcs.
      split_and!.
      * done.
      * replace (k - i) with (S (k - S i)) by lia. by rewrite fmap_cons, Hs.
      * constructor; [by eexists|done].
      * split; [done|exact Hth].
    + intros [= <- <- <- <-]. exists [].
      rewrite Nat.sub_diag. by split_and!.
Qed.

Lemma compensation_pass_calls ts args w :
  call_site <$> unwind_calls (compensation_pass ts args w) =
    (fun j => (Compensate, j)) <$> reverse (seq 0 (length ts)) /\
  threaded args (unwind_calls (compensation_pass ts args w)) /\
  unwind_args (compensation_pass ts args w) =
    foldl next_args args (unwind_calls (compensation_pass ts args w)).
Proof.
  revert args w. induction ts as [|t ts IH]; intros args w;
    cbn [compensation_pass].
  - done.
  - destruct (ITransaction.compensate t args w) as [[s w0] regs].
    cbn [unwind_calls unwind_args].
    destruct (IH (match s with Fulfilled v => v | Rejected _ => args end) w0)
      as (Hs & Hth & Hfin).
    split_and!.
    + cbn [length]. by rewrite seq_S, reverse_app, fmap_cons, Hs.
    + split; [done|]. by destruct s.
    + rewrite Hfin. by destruct s.
Qed.

(** Every call of the compensation fold is the compensate function of the
    step at its position, applied to the argument of the call. *)
Lemma compensation_pass_lookup ts args w p c :
  unwind_calls (compensation_pass ts args w) !! p = Some c ->
  exists t w',
    ts !! p = Some t /\
    call_site c = (Compensate, length ts - S p) /\
    (ITransaction.compensate t (call_args c) w').1.1 = call_settled c.
Proof.
  revert args w p. induction ts as [|t ts IH]; intros args w p;
    cbn [compensation_pass].
  - discriminate.
  - destruct (ITransaction.compensate t args w) as [[s w0] regs] eqn:Hrun.
    cbn [unwind_calls]. destruct p as [|p].
    + intros [= <-]. exists t, w. split_and!; [done| |simpl; by rewrite Hrun].
      unfold call_site. simpl. f_equal. lia.
    + intros H. destruct (IH _ _ _ H) as (t' & w' & Ht' & Hsite & Hfun).
      exists t', w'. split_and!; done.
Qed.

(** Every call of the forward fold is the forward action of the step at its
    position, applied to the argument of the call. *)
Lemma forward_trace_lookup txs i args w p c :
  trace_calls (forward_trace txs i args w) !! p = Some c ->
  exists t w',
    txs !! p = Some t /\
    call_site c = (Execute, i + p) /\
    (ITransaction.execute t (call_args c) w').1.1 = call_settled c.
Proof.
  revert i args w p. induction txs as [|t txs IH]; intros i args w p;
    cbn [forward_trace].
  - discriminate.
  - destruct (ITransaction.execute t args w) as [[s w0] regs] eqn:Hrun.
    cbn [trace_calls]. destruct p as [|p].
    + intros [= <-]. exists t, w. rewrite Nat.add_0_r.
      split_and!; [done..|]. simpl. by rewrite Hrun.
    + intros H. destruct s as [v|e]; [|discriminate].
      destruct (IH _ _ _ _ H) as (t' & w' & Ht' & Hsite & Hfun).
      exists t', w'. split_and!; [done| |done].
      rewrite Hsite. f_equal. lia.
Qed.

Lemma forward_trace_app txs1 txs2 i args w s w' :
  forward_pass txs1 i args w = Completed s w' ->
  forward_trace (txs1 ++ txs2) i args w =
    Trace (trace_calls (forward_trace txs1 i args w) ++
           trace_calls (forward_trace txs2 (i + length txs1) s w'))
          (trace_pushes (forward_trace txs1 i args w) ++
           trace_pushes (forward_trace txs2 (i + length txs1) s w')).
Proof.
  revert i args w. induction txs1 as [|t txs1 IH]; intros i args w;
    cbn [forward_pass forward_trace app].
  - intros [= <- <-]. rewrite Nat.add_0_r. simpl.
    by destruct (forward_trace txs2 i args w).
  - destruct (ITransaction.execute t args w) as [[[v|e] w0] regs]; [|done].
    intros H. rewrite (IH _ _ _ H). cbn [trace_calls trace_pushes length].
    replace (S i + length txs1) with (i + S (length txs1)) by lia.
    by rewrite <- !app_assoc.
Qed.

Lemma forward_trace_quiet this txs i args w :
  Forall (quiet this) txs ->
  Forall (fun p => p.1 <> this) (trace_pushes (forward_trace txs i args w)).
Proof.
  intros H. revert i args w. induction H as [|t txs Ht _ IH]; intros i args w;
    cbn [forward_trace].
  - constructor.
  - destruct (Ht args w) as [Hq _].
    destruct (ITransaction.execute t args w) as [[s w0] regs].
    cbn [trace_pushes snd] in *.
    apply Forall_app. split.
    + apply Forall_fmap. eapply Forall_impl; [exact Hq|].
      intros r Hr. simpl. by rewrite resolve_target.
    + destruct s; [apply IH|constructor].
Qed.

Lemma compensation_pass_quiet this ts args w :
  Forall (quiet this) ts ->
  Forall (fun p => p.1 <> this) (unwind_pushes (compensation_pass ts args w)).
Proof.
  intros H. revert args w. induction H as [|t ts Ht _ IH]; intros args w;
    cbn [compensation_pass].
  - constructor.
  - destruct (Ht args w) as [_ Hq].
    destruct (ITransaction.compensate t args w) as [[s w0] regs].
    cbn [unwind_pushes snd] in *.
    apply Forall_app. split.
    + apply Forall_fmap. eapply Forall_impl; [exact Hq|].
      intros r Hr. simpl. by rewrite resolve_target.
    + apply IH.
Qed.

Lemma sites_lookup (f : nat -> method * nat) cs (js : list nat) n c :
  call_site <$> cs = f <$> js -> cs !! n = Some c ->
  exists j, js !! n = Some j /\ call_site c = f j.
Proof.
  intros H Hc.
  assert (H' : (call_site <$> cs) !! n = Some (call_site c))
    by (by rewrite list_lookup_fmap, Hc).
  rewrite H, list_lookup_fmap in H'.
  destruct (js !! n) as [j|]; [|discriminate].
  exists j. split; [done|]. simpl in H'. congruence.
Qed.

Lemma sites_length (f : nat -> method * nat) cs (js : list nat) :
  call_site <$> cs = f <$> js -> length cs = length js.
Proof. intros H. by rewrite <- (length_fmap call_site), H, length_fmap. Qed.
End NotionLemmas.

(** ** One iteration of each loop *)

Section Steps.
Context {T E W : Type}.
Variable type_error : E.
Variable this : loc.

Implicit Types (o : SagaObject T E W) (h : gmap loc (SagaObject T E W)).
Implicit Types (args : T) (w : W) (cs : list (call T E)) (t : ITransaction.t T E W).

Lemma get_transactions_run (m : machine T E W) o :
  heap m !! this = Some o ->
  Saga.get_transactions type_error this m = (Normal (_transactions o), m).
Proof. intros H. unfold Saga.get_transactions. by rewrite H. Qed.

(** No object at [this]: the read of [this._transactions] throws inside
    [try]. *)
Lemma compensate_step_dangling h w cs i args :
  h !! this = None ->
  Saga._startCompensate_for type_error this (S i) args (Machine h w cs) =
  Saga._startCompensate_for type_error this i args (Machine h w cs).
Proof.
  intros Hthis. cbn [Saga._startCompensate_for].
  unfold try_catch at 1. unfold bind at 1.
  unfold Saga.get_transaction, bind, Saga.get_transactions. simpl.
  by rewrite Hthis.
Qed.

(** No element at [i]: the read of its [compensate] throws inside [try]. *)
Lemma compensate_step_missing o h w cs i args :
  h !! this = Some o -> _transactions o !! i = None ->
  Saga._startCompensate_for type_error this (S i) args (Machine h w cs) =
  Saga._startCompensate_for type_error this i args (Machine h w cs).
Proof.
  intros Hthis Hi. cbn [Saga._startCompensate_for].
  unfold try_catch at 1. unfold bind at 1.
  unfold Saga.get_transaction, bind, Saga.get_transactions. simpl.
  by rewrite Hthis, Hi.
Qed.

(** The iteration at [i] calls the compensate function of the transaction
    at [i]; fulfilled or rejected, the loop goes on below [i], with the new
    value or with [args] as it was. *)
Lemma compensate_step_call o h w cs i args t s w1 regs :
  h !! this = Some o -> _transactions o !! i = Some t ->
  ITransaction.compensate t args w = (s, w1, regs) ->
  Saga._startCompensate_for type_error this (S i) args (Machine h w cs) =
  Saga._startCompensate_for type_error this i
    (match s with Fulfilled v => v | Rejected _ => args end)
    (Machine (push_all (resolve t <$> regs) h) w1 (cs ++ [Call Compensate i args s])).
Proof.
  intros Hthis Hi Hrun. cbn [Saga._startCompensate_for].
  unfold try_catch at 1. unfold bind at 1.
  unfold Saga.get_transaction, bind, Saga.get_transactions. simpl.
  rewrite Hthis, Hi. unfold ret, await. simpl. rewrite Hrun. by destruct s.
Qed.

Lemma execute_step_dangling h w cs fuel i args :
  h !! this = None ->
  Saga.execute_for type_error fuel this i args (Machine h w cs) =
  (Throw type_error, Machine h w cs).
Proof.
  intros Hthis.
  destruct fuel; cbn [Saga.execute_for]; unfold bind, Saga.get_transactions; simpl;
    by rewrite Hthis.
Qed.

Lemma execute_step_end o h w cs fuel i args :
  h !! this = Some o -> length (_transactions o) <= i ->
  Saga.execute_for type_error fuel this i args (Machine h w cs) =
  (Normal (Fallthrough args), Machine h w cs).
Proof.
  intros Hthis Hi.
  destruct fuel; cbn [Saga.execute_for]; unfold bind, Saga.get_transactions; simpl;
    rewrite Hthis; by destruct (Nat.ltb_spec i (length (_transactions o))); [lia|].
Qed.

Lemma execute_step_fuel o h w cs i args :
  h !! this = Some o -> i < length (_transactions o) ->
  Saga.execute_for type_error 0 this i args (Machine h w cs) =
  (OutOfFuel, Machine h w cs).
Proof.
  intros Hthis Hi.
  cbn [Saga.execute_for]. unfold bind, Saga.get_transactions. simpl.
  rewrite Hthis. by destruct (Nat.ltb_spec i (length (_transactions o))); [|lia].
Qed.

Lemma execute_step_fulfilled o h w cs fuel i args t v w1 regs :
  h !! this = Some o -> _transactions o !! i = Some t ->
  ITransaction.execute t args w = (Fulfilled v, w1, regs) ->
  Saga.execute_for type_error (S fuel) this i args (Machine h w cs) =
  Saga.execute_for type_error fuel this (S i) v
    (Machine (push_all (resolve t <$> regs) h) w1
             (cs ++ [Call Execute i args (Fulfilled v)])).
Proof.
  intros Hthis Hi Hrun. pose proof (lookup_lt_Some _ _ _ Hi) as Hlt.
  cbn [Saga.execute_for]. unfold bind at 1. unfold Saga.get_transactions at 1. simpl.
  rewrite Hthis. destruct (Nat.ltb_spec i (length (_transactions o))); [|lia].
  unfold bind at 1. unfold Saga.get_transaction, bind, Saga.get_transactions. simpl.
  rewrite Hthis, Hi. unfold ret, try_catch, await. simpl. by rewrite Hrun.
Qed.

Lemma execute_step_rejected o h w cs fuel i args t e w1 regs :
  h !! this = Some o -> _transactions o !! i = Some t ->
  ITransaction.execute t args w = (Rejected e, w1, regs) ->
  Saga.execute_for type_error (S fuel) this i args (Machine h w cs) =
  (let* r := Saga._startCompensate type_error this i args e in ret (Return r))
    (Machine (push_all (resolve t <$> regs) h) w1
             (cs ++ [Call Execute i args (Rejected e)])).
Proof.
  intros Hthis Hi Hrun. pose proof (lookup_lt_Some _ _ _ Hi) as Hlt.
  cbn [Saga.execute_for]. unfold bind at 1. unfold Saga.get_transactions at 1. simpl.
  rewrite Hthis. destruct (Nat.ltb_spec i (length (_transactions o))); [|lia].
  unfold bind at 1. unfold Saga.get_transaction at 1, bind at 1, Saga.get_transactions at 1.
  simpl. rewrite Hthis, Hi. unfold ret at 1. unfold try_catch, await. simpl.
  by rewrite Hrun.
Qed.
End Steps.

(** ** The two loops against the two folds *)

Section Exact.
Context {T E W : Type}.
Variable type_error : E.
Variable this : loc.

Implicit Types (h : gmap loc (SagaObject T E W)) (txs : list (ITransaction.t T E W)).
Implicit Types (args : T) (w : W) (cs : list (call T E)).

(** The compensation loop entered below [idx], on a saga whose list starts
    with [txs]: it is the fold of the compensate functions of the steps
    [idx-1], ..., 0. It never throws. *)
Lemma compensate_exact txs idx : forall args h w cs extra,
  h !! this = Some (MkSaga (txs ++ extra)) -> idx <= length txs ->
  Saga._startCompensate_for type_error this idx args (Machine h w cs) =
    (Normal (unwind_args (compensation_pass (reverse (take idx txs)) args w)),
     Machine
       (push_all (unwind_pushes (compensation_pass (reverse (take idx txs)) args w)) h)
       (unwind_world (compensation_pass (reverse (take idx txs)) args w))
       (cs ++ unwind_calls (compensation_pass (reverse (take idx txs)) args w))).
Proof.
  induction idx as [|i IH]; intros args h w cs extra Hthis Hle.
  - rewrite take_0. simpl. unfold ret. by rewrite app_nil_r.
  - destruct (lookup_lt_is_Some_2 txs i) as [t Ht]; [lia|].
    assert (Ht' : (txs ++ extra) !! i = Some t) by (by apply lookup_app_l_Some).
    rewrite (take_S_r _ _ _ Ht), reverse_snoc. cbn [compensation_pass].
    destruct (ITransaction.compensate t args w) as [[s w1] regs] eqn:Hrun.
    rewrite (compensate_step_call type_error this (MkSaga (txs ++ extra))
               h w cs i args t s w1 regs Hthis Ht' Hrun).
    destruct (push_all_prefix (resolve t <$> regs) h this txs extra Hthis)
      as [extra1 Hthis1].
    rewrite (IH _ _ _ _ extra1 Hthis1) by lia.
    cbn [unwind_args unwind_pushes unwind_world unwind_calls].
    rewrite length_reverse, length_take, Nat.min_l by lia.
    by rewrite !push_all_app, <- !app_assoc.
Qed.

(** The same below any [idx] when the list is exactly [txs]: the indices
    from the end of the array on are passed over without a call. *)
Lemma compensate_exact_any txs idx : forall args h w cs,
  h !! this = Some (MkSaga txs) ->
  Saga._startCompensate_for type_error this idx args (Machine h w cs) =
    (Normal (unwind_args (compensation_pass (reverse (take idx txs)) args w)),
     Machine
       (push_all (unwind_pushes (compensation_pass (reverse (take idx txs)) args w)) h)
       (unwind_world (compensation_pass (reverse (take idx txs)) args w))
       (cs ++ unwind_calls (compensation_pass (reverse (take idx txs)) args w))).
Proof.
  induction idx as [|i IH]; intros args h w cs Hthis.
  - apply (compensate_exact txs 0 args h w cs []); [by rewrite app_nil_r|lia].
  - destruct (decide (S i <= length txs)) as [Hle|Hgt].
    + apply (compensate_exact txs (S i) args h w cs []); [by rewrite app_nil_r|lia].
    + rewrite (compensate_step_missing type_error this (MkSaga txs) h w cs i args Hthis)
        by (apply lookup_ge_None_2; simpl; lia).
      rewrite IH by done.
      by rewrite !take_ge by lia.
Qed.

(** The forward loop when the fold of the steps from [i] on fails at [k],
    on a saga whose list starts with [txs]. *)
Lemma execute_for_failed_exact txs fuel : forall i args h w cs extra k e a w1,
  h !! this = Some (MkSaga (txs ++ extra)) ->
  length txs - i <= fuel ->
  forward_pass (drop i txs) i args w = FailedAt k e a w1 ->
  Saga.execute_for type_error fuel this i args (Machine h w cs) =
    (Normal (Return (err e)),
     Machine
       (push_all (trace_pushes (forward_trace (drop i txs) i args w) ++
                  unwind_pushes (compensation_pass (reverse (take k txs)) a w1)) h)
       (unwind_world (compensation_pass (reverse (take k txs)) a w1))
       (cs ++ trace_calls (forward_trace (drop i txs) i args w) ++
              unwind_calls (compensation_pass (reverse (take k txs)) a w1))).
Proof.
  induction fuel as [|fuel IH]; intros i args h w cs extra k e a w1 Hthis Hfuel Hpass.
  { rewrite drop_ge in Hpass by lia. discriminate. }
  destruct (decide (i < length txs)) as [Hlt|Hge];
    [|rewrite drop_ge in Hpass by lia; discriminate].
  destruct (lookup_lt_is_Some_2 txs i) as [t Ht]; [lia|].
  assert (Ht' : (txs ++ extra) !! i = Some t) by (by apply lookup_app_l_Some).
  rewrite (drop_S _ _ _ Ht) in *. cbn [forward_pass forward_trace] in *.
  destruct (ITransaction.execute t args w) as [[[v|e0] w0] regs] eqn:Hrun.
  - rewrite (execute_step_fulfilled type_error this (MkSaga (txs ++ extra))
               h w cs fuel i args t v w0 regs Hthis Ht' Hrun).
    destruct (push_all_prefix (resolve t <$> regs) h this txs extra Hthis)
      as [extra1 Hthis1].
    rewrite (IH _ _ _ _ _ extra1 k e a w1 Hthis1) by (done || lia).
    cbn [trace_calls trace_pushes].
    by rewrite <- !app_assoc, !push_all_app.
  - injection Hpass as <- <- <- <-.
    rewrite (execute_step_rejected type_error this (MkSaga (txs ++ extra))
               h w cs fuel i args t e0 w0 regs Hthis Ht' Hrun).
    destruct (push_all_prefix (resolve t <$> regs) h this txs extra Hthis)
      as [extra1 Hthis1].
    unfold Saga._startCompensate, bind.
    rewrite (compensate_exact txs i _ _ _ _ extra1 Hthis1) by lia.
    cbn [trace_calls trace_pushes]. unfold ret.
    by rewrite app_nil_r, !push_all_app, <- !app_assoc.
Qed.

Lemma execute_for_end_exact txs fuel i args h w cs s w1 :
  h !! this = Some (MkSaga txs) -> length txs <= i ->
  forward_pass (drop i txs) i args w = Completed s w1 ->
  Saga.execute_for type_error fuel this i args (Machine h w cs) =
    (Normal (Fallthrough s),
     Machine (push_all (trace_pushes (forward_trace (drop i txs) i args w)) h) w1
             (cs ++ trace_calls (forward_trace (drop i txs) i args w))).
Proof.
  intros Hthis Hi Hpass.
  rewrite drop_ge in * by done. injection Hpass as <- <-.
  rewrite (execute_step_end type_error this (MkSaga txs)) by done.
  simpl. by rewrite app_nil_r.
Qed.

(** The forward loop when the fold of the steps from [i] on completes and
    none of their forward actions registers a step on the running saga. *)
Lemma execute_for_completed_exact txs fuel : forall i args h w cs s w1,
  h !! this = Some (MkSaga txs) ->
  length txs - i <= fuel ->
  forward_pass (drop i txs) i args w = Completed s w1 ->
  Forall (fun p => p.1 <> this) (trace_pushes (forward_trace (drop i txs) i args w)) ->
  Saga.execute_for type_error fuel this i args (Machine h w cs) =
    (Normal (Fallthrough s),
     Machine (push_all (trace_pushes (forward_trace (drop i txs) i args w)) h) w1
             (cs ++ trace_calls (forward_trace (drop i txs) i args w))).
Proof.
  induction fuel as [|fuel IH]; intros i args h w cs s w1 Hthis Hfuel Hpass Hq.
  { apply execute_for_end_exact; [done|lia|done]. }
  destruct (decide (i < length txs)) as [Hlt|Hge];
    [|apply execute_for_end_exact; [done|lia|done]].
  destruct (lookup_lt_is_Some_2 txs i) as [t Ht]; [lia|].
  rewrite (drop_S _ _ _ Ht) in *. cbn [forward_pass forward_trace] in *.
  destruct (ITransaction.execute t args w) as [[[v|e0] w0] regs] eqn:Hrun; [|done].
  cbn [trace_calls trace_pushes] in *.
  apply Forall_app in Hq as [Hq1 Hq2].
  rewrite (execute_step_fulfilled type_error this (MkSaga txs)
             h w cs fuel i args t v w0 regs Hthis Ht Hrun).
  rewrite (IH (S i) v _ w0 _ s w1); [|by rewrite push_all_other|lia|done|done].
  by rewrite <- !app_assoc, !push_all_app.
Qed.

Lemma execute_failed_exact (o : SagaObject T E W) fuel args (m : machine T E W) k e a w1 :
  heap m !! this = Some o ->
  length (_transactions o) <= fuel ->
  forward_pass (_transactions o) 0 args (world m) = FailedAt k e a w1 ->
  Saga.execute type_error fuel this args m =
    (Normal (err e),
     Machine
       (push_all (trace_pushes (forward_trace (_transactions o) 0 args (world m)) ++
                  unwind_pushes
                    (compensation_pass (reverse (take k (_transactions o))) a w1))
                 (heap m))
       (unwind_world (compensation_pass (reverse (take k (_transactions o))) a w1))
       (calls m ++ trace_calls (forward_trace (_transactions o) 0 args (world m)) ++
          unwind_calls (compensation_pass (reverse (take k (_transactions o))) a w1))).
Proof.
  intros Hthis Hfuel Hpass. destruct m as [h w cs], o as [txs]. simpl in *.
  unfold Saga.execute, bind.
  rewrite (execute_for_failed_exact txs fuel 0 args h w cs [] k e a w1);
    [by rewrite drop_0|by rewrite app_nil_r|lia|by rewrite drop_0].
Qed.

Lemma execute_completed_exact (o : SagaObject T E W) fuel args (m : machine T E W) s w1 :
  heap m !! this = Some o ->
  length (_transactions o) <= fuel ->
  forward_pass (_transactions o) 0 args (world m) = Completed s w1 ->
  Forall (fun p => p.1 <> this)
    (trace_pushes (forward_trace (_transactions o) 0 args (world m))) ->
  Saga.execute_for type_error fuel this 0 args m =
    (Normal (Fallthrough s),
     Machine (push_all (trace_pushes (forward_trace (_transactions o) 0 args (world m)))
                       (heap m))
             w1
             (calls m ++ trace_calls (forward_trace (_transactions o) 0 args (world m)))) /\
  Saga.execute type_error fuel this args m =
    (Normal (ok tt),
     Machine (push_all (trace_pushes (forward_trace (_transactions o) 0 args (world m)))
                       (heap m))
             w1
             (calls m ++ trace_calls (forward_trace (_transactions o) 0 args (world m)))).
Proof.
  intros Hthis Hfuel Hpass Hq. destruct m as [h w cs], o as [txs]. simpl in *.
  unfold Saga.execute, bind.
  rewrite (execute_for_completed_exact txs fuel 0 args h w cs s w1);
    [by rewrite drop_0|done|lia|by rewrite drop_0|by rewrite drop_0].
Qed.
End Exact.

(** ** The shape of the log of any run *)

Section Shape.
Context {T E W : Type}.
Variable type_error : E.
Variable this : loc.

Implicit Types (h : gmap loc (SagaObject T E W)) (o : SagaObject T E W).
Implicit Types (args : T) (w : W) (cs : list (call T E)).

(** Any run of the forward loop on an existing saga, whatever the steps
    register and however many iterations it is given: the calls are threaded
    on [args], and they are fulfilled forward calls at consecutive indices,
    followed, when the loop returns, by one rejected forward call and the
    compensations below it. The loop never ends with an exception. *)
Lemma execute_for_shape fuel : forall i args h w cs o,
  h !! this = Some o -> i <= length (_transactions o) ->
  exists r h' w' cs',
    Saga.execute_for type_error fuel this i args (Machine h w cs) =
      (r, Machine h' w' (cs ++ cs')) /\
    threaded args cs' /\
    match r with
    | Normal (Fallthrough s) =>
        exists o', h' !! this = Some o' /\ i <= length (_transactions o') /\
          call_site <$> cs' =
            (fun j => (Execute, j)) <$> seq i (length (_transactions o') - i) /\
          Forall fulfilled cs' /\ s = foldl next_args args cs'
    | OutOfFuel =>
        exists n, call_site <$> cs' = (fun j => (Execute, j)) <$> seq i n /\
          Forall fulfilled cs'
    | Normal (Return x) =>
        exists k e a pre post,
          x = err e /\ cs' = pre ++ Call Execute k a (Rejected e) :: post /\
          i <= k /\
          call_site <$> pre = (fun j => (Execute, j)) <$> seq i (k - i) /\
          Forall fulfilled pre /\
          call_site <$> post = (fun j => (Compensate, j)) <$> reverse (seq 0 k)
    | Throw _ => False
    end.
Proof.
  assert (Hend : forall fuel i args h w cs o,
    h !! this = Some o -> i <= length (_transactions o) ->
    length (_transactions o) <= i ->
    exists r h' w' cs',
      Saga.execute_for type_error fuel this i args (Machine h w cs) =
        (r, Machine h' w' (cs ++ cs')) /\
      threaded args cs' /\
      match r with
      | Normal (Fallthrough s) =>
          exists o', h' !! this = Some o' /\ i <= length (_transactions o') /\
            call_site <$> cs' =
              (fun j => (Execute, j)) <$> seq i (length (_transactions o') - i) /\
            Forall fulfilled cs' /\ s = foldl next_args args cs'
      | OutOfFuel =>
          exists n, call_site <$> cs' = (fun j => (Execute, j)) <$> seq i n /\
            Forall fulfilled cs'
      | Normal (Return x) =>
          exists k e a pre post,
            x = err e /\ cs' = pre ++ Call Execute k a (Rejected e) :: post /\
            i <= k /\
            call_site <$> pre = (fun j => (Execute, j)) <$> seq i (k - i) /\
            Forall fulfilled pre /\
            call_site <$> post = (fun j => (Compensate, j)) <$> reverse (seq 0 k)
      | Throw _ => False
      end).
  { intros fuel' i args h w cs o Hthis Hle Hge.
    exists (Normal (Fallthrough args)), h, w, [].
    rewrite (execute_step_end type_error this o) by done.
    rewrite app_nil_r. split_and!; [done..|].
    exists o. replace (length (_transactions o) - i) with 0 by lia.
    by split_and!. }
  induction fuel as [|fuel IH]; intros i args h w cs o Hthis Hle.
  { destruct (decide (i < length (_transactions o))) as [Hlt|Hge];
      [|apply (Hend 0 i args h w cs o); [done|done|lia]].
    exists OutOfFuel, h, w, [].
    rewrite (execute_step_fuel type_error this o) by done.
    rewrite app_nil_r. split_and!; [done..|]. by exists 0. }
  destruct (decide (i < length (_transactions o))) as [Hlt|Hge];
    [|apply (Hend (S fuel) i args h w cs o); [done|done|lia]].
  destruct (lookup_lt_is_Some_2 (_transactions o) i) as [t Ht]; [lia|].
  destruct (ITransaction.execute t args w) as [[[v|e] w0] regs] eqn:Hrun.
  - rewrite (execute_step_fulfilled type_error this o h w cs fuel i args t v w0 regs
               Hthis Ht Hrun).
    destruct (push_all_grows (resolve t <$> regs) h this o Hthis) as (o1 & Hthis1 & Hlen1).
    destruct (IH (S i) v _ w0 (cs ++ [Call Execute i args (Fulfilled v)]) o1 Hthis1)
      as (r & h' & w' & cs1 & Heq & Hth & Hshape); [lia|].
    exists r, h', w', (Call Execute i args (Fulfilled v) :: cs1).
    rewrite Heq, <- app_assoc. split_and!; [done|by split|].
    destruct r as [[s|x]|x|].
    + destruct Hshape as (o' & Ho' & Hi' & Hs & Hful & Hfin).
      exists o'. split_and!; [done|lia| | |done].
      * replace (length (_transactions o') - i)
          with (S (length (_transactions o') - S i)) by lia.
        by rewrite fmap_cons, Hs.
      * constructor; [by eexists|done].
    + destruct Hshape as (k & e & a & pre & post & -> & -> & Hk & Hs & Hful & Hpost).
      exists k, e, a, (Call Execute i args (Fulfilled v) :: pre), post.
      split_and!; [done|done|lia| | |done].
      * replace (k - i) with (S (k - S i)) by lia. by rewrite fmap_cons, Hs.
      * constructor; [by eexists|done].
    + done.
    + destruct Hshape as (n & Hs & Hful).
      exists (S n). split.
      * by rewrite fmap_cons, Hs.
      * constructor; [by eexists|done].
  - rewrite (execute_step_rejected type_error this o h w cs fuel i args t e w0 regs
               Hthis Ht Hrun).
    destruct (push_all_grows (resolve t <$> regs) h this o Hthis) as (o1 & Hthis1 & Hlen1).
    destruct o1 as [txs1]. simpl in Hlen1.
    unfold Saga._startCompensate, bind.
    rewrite (compensate_exact type_error this txs1 i args
               (push_all (resolve t <$> regs) h) w0
               (cs ++ [Call Execute i args (Rejected e)]) []);
      [|by rewrite app_nil_r|lia].
    destruct (compensation_pass_calls (reverse (take i txs1)) args w0)
      as (Hs & Hth & _).
    rewrite length_reverse, length_take, Nat.min_l in Hs by lia.
    eexists _, _, _,
      (Call Execute i args (Rejected e) ::
         unwind_calls (compensation_pass (reverse (take i txs1)) args w0)).
    unfold ret. rewrite <- app_assoc. split_and!; [reflexivity|by split|].
    exists i, e, args, [],
      (unwind_calls (compensation_pass (reverse (take i txs1)) args w0)).
    rewrite Nat.sub_diag. by split_and!.
Qed.

Lemma execute_shape fuel args (m : machine T E W) o :
  heap m !! this = Some o ->
  exists r h' w' cs',
    Saga.execute type_error fuel this args m = (r, Machine h' w' (calls m ++ cs')) /\
    threaded args cs' /\
    match r with
    | Normal (ok _) =>
        exists o', h' !! this = Some o' /\
          call_site <$> cs' =
            (fun j => (Execute, j)) <$> seq 0 (length (_transactions o')) /\
          Forall fulfilled cs'
    | OutOfFuel =>
        exists n, call_site <$> cs' = (fun j => (Execute, j)) <$> seq 0 n /\
          Forall fulfilled cs'
    | Normal (err e) =>
        exists k a pre post,
          cs' = pre ++ Call Execute k a (Rejected e) :: post /\
          call_site <$> pre = (fun j => (Execute, j)) <$> seq 0 k /\
          Forall fulfilled pre /\
          call_site <$> post = (fun j => (Compensate, j)) <$> reverse (seq 0 k)
    | Throw _ => False
    end.
Proof.
  intros Hthis. destruct m as [h w cs]. simpl in *.
  destruct (execute_for_shape fuel 0 args h w cs o Hthis)
    as (r & h' & w' & cs' & Heq & Hth & Hshape); [lia|].
  unfold Saga.execute, bind. rewrite Heq.
  destruct r as [[s|x]|x|].
  - exists (Normal (ok tt)), h', w', cs'. split_and!; [done..|].
    destruct Hshape as (o' & Ho' & _ & Hs & Hful & _).
    exists o'. rewrite Nat.sub_0_r in Hs. done.
  - destruct Hshape as (k & e & a & pre & post & -> & -> & _ & Hs & Hful & Hpost).
    exists (Normal (err e)), h', w', (pre ++ Call Execute k a (Rejected e) :: post).
    split_and!; [done..|].
    exists k, a, pre, post. rewrite Nat.sub_0_r in Hs. done.
  - done.
  - exists OutOfFuel, h', w', cs'. done.
Qed.
End Shape.

(** ** Sagas with the same functions *)

Section Names.
Context {T E W : Type}.
Variable type_error : E.
Variable this : loc.

Implicit Types (h : gmap loc (SagaObject T E W)) (o : SagaObject T E W).
Implicit Types (args : T) (w : W) (cs : list (call T E)).
Implicit Types (t x : ITransaction.t T E W) (ps : list (loc * ITransaction.t T E W)).

Lemma same_functions_refl t : same_functions t t.
Proof. by split. Qed.

Lemma same_functions_list_refl (l : list (ITransaction.t T E W)) :
  Forall2 same_functions l l.
Proof. induction l; constructor; [apply same_functions_refl|done]. Qed.

Lemma same_sagas_insert h o o' :
  Forall2 same_functions (_transactions o) (_transactions o') ->
  same_sagas (<[this := o]> h) (<[this := o']> h).
Proof.
  intros H l. destruct (decide (l = this)) as [->|Hl].
  - rewrite !lookup_insert_eq. by constructor.
  - rewrite !lookup_insert_ne by done.
    destruct (h !! l); constructor. apply same_functions_list_refl.
Qed.

Lemma push_same h h' l x x' :
  same_sagas h h' -> same_functions x x' ->
  same_sagas (push (l, x) h) (push (l, x') h').
Proof.
  intros H Hx l0. unfold push. simpl.
  pose proof (H l) as Hl.
  destruct (h !! l) as [o|], (h' !! l) as [o'|]; inversion Hl; subst; [|apply H].
  destruct (decide (l0 = l)) as [->|Hne].
  - rewrite !lookup_insert_eq. constructor. simpl.
    apply Forall2_app; [done|by constructor].
  - rewrite !lookup_insert_ne by done. apply H.
Qed.

Lemma push_all_same ps ps' : forall h h',
  same_sagas h h' ->
  Forall2 (fun p p' => p.1 = p'.1 /\ same_functions p.2 p'.2) ps ps' ->
  same_sagas (push_all ps h) (push_all ps' h').
Proof.
  intros h h' H Hps. revert h h' H.
  induction Hps as [|[l x] [l' x'] ps ps' [Hl Hx] _ IH]; intros h h' H; [done|].
  simpl in *. subst l'. apply IH. by apply push_same.
Qed.

Lemma resolve_same t t' (regs : list (registration (ITransaction.t T E W))) :
  same_functions t t' ->
  Forall2 (fun p p' => p.1 = p'.1 /\ same_functions p.2 p'.2)
    (resolve t <$> regs) (resolve t' <$> regs).
Proof.
  intros Ht. induction regs as [|[l x|l] regs IH]; simpl; constructor; done.
Qed.

Lemma compensate_same idx : forall args h h' w cs,
  same_sagas h h' ->
  exists r h1 h1' w1 cs1,
    Saga._startCompensate_for type_error this idx args (Machine h w cs) =
      (r, Machine h1 w1 cs1) /\
    Saga._startCompensate_for type_error this idx args (Machine h' w cs) =
      (r, Machine h1' w1 cs1) /\
    same_sagas h1 h1'.
Proof.
  induction idx as [|i IH]; intros args h h' w cs Hsame.
  - by eexists _, _, _, _, _.
  - pose proof (Hsame this) as Hthis.
    destruct (h !! this) as [o|] eqn:Ho, (h' !! this) as [o'|] eqn:Ho';
      inversion Hthis as [? ? Htxs|]; subst.
    + pose proof (proj1 (Forall2_lookup _ _ _) Htxs i) as Hi.
      destruct (_transactions o !! i) as [t|] eqn:Ht,
               (_transactions o' !! i) as [t'|] eqn:Ht';
        inversion Hi as [? ? Hfun|]; subst.
      * destruct (ITransaction.compensate t args w) as [[s w1] regs] eqn:Hrun.
        assert (Hrun' : ITransaction.compensate t' args w = (s, w1, regs))
          by (destruct Hfun as [_ Hc]; by rewrite <- Hc).
        rewrite (compensate_step_call type_error this o h w cs i args t s w1 regs)
          by done.
        rewrite (compensate_step_call type_error this o' h' w cs i args t' s w1 regs)
          by done.
        apply IH. apply push_all_same; [done|by apply resolve_same].
      * rewrite (compensate_step_missing type_error this o h w cs i args) by done.
        rewrite (compensate_step_missing type_error this o' h' w cs i args) by done.
        by apply IH.
    + rewrite (compensate_step_dangling type_error this h w cs i args) by done.
      rewrite (compensate_step_dangling type_error this h' w cs i args) by done.
      by apply IH.
Qed.

Lemma execute_for_same fuel : forall i args h h' w cs,
  same_sagas h h' ->
  exists r h1 h1' w1 cs1,
    Saga.execute_for type_error fuel this i args (Machine h w cs) =
      (r, Machine h1 w1 cs1) /\
    Saga.execute_for type_error fuel this i args (Machine h' w cs) =
      (r, Machine h1' w1 cs1) /\
    same_sagas h1 h1'.
Proof.
  induction fuel as [|fuel IH]; intros i args h h' w cs Hsame;
    pose proof (Hsame this) as Hthis;
    (destruct (h !! this) as [o|] eqn:Ho, (h' !! this) as [o'|] eqn:Ho';
      inversion Hthis as [? ? Htxs|]; subst;
      [pose proof (Forall2_length _ _ _ Htxs) as Hlen
      |rewrite !(execute_step_dangling type_error this) by done;
       by eexists _, _, _, _, _]).
  - destruct (decide (i < length (_transactions o))) as [Hlt|Hge].
    + rewrite (execute_step_fuel type_error this o) by done.
      rewrite (execute_step_fuel type_error this o') by (done || lia).
      by eexists _, _, _, _, _.
    + rewrite (execute_step_end type_error this o) by (done || lia).
      rewrite (execute_step_end type_error this o') by (done || lia).
      by eexists _, _, _, _, _.
  - pose proof (proj1 (Forall2_lookup _ _ _) Htxs i) as Hi.
    destruct (_transactions o !! i) as [t|] eqn:Ht,
             (_transactions o' !! i) as [t'|] eqn:Ht';
      inversion Hi as [? ? Hfun|]; subst.
    + destruct (ITransaction.execute t args w) as [[[v|e] w1] regs] eqn:Hrun.
      * assert (Hrun' : ITransaction.execute t' args w = (Fulfilled v, w1, regs))
          by (destruct Hfun as [Hx _]; by rewrite <- Hx).
        rewrite (execute_step_fulfilled type_error this o h w cs fuel i args t v w1 regs)
          by done.
        rewrite (execute_step_fulfilled type_error this o' h' w cs fuel i args t' v w1 regs)
          by done.
        apply IH. apply push_all_same; [done|by apply resolve_same].
      * assert (Hrun' : ITransaction.execute t' args w = (Rejected e, w1, regs))
          by (destruct Hfun as [Hx _]; by rewrite <- Hx).
        rewrite (execute_step_rejected type_error this o h w cs fuel i args t e w1 regs)
          by done.
        rewrite (execute_step_rejected type_error this o' h' w cs fuel i args t' e w1 regs)
          by done.
        destruct (compensate_same i args
                    (push_all (resolve t <$> regs) h) (push_all (resolve t' <$> regs) h')
                    w1 (cs ++ [Call Execute i args (Rejected e)]))
          as (r & h1 & h1' & w2 & cs2 & Hr & Hr' & Hsame1);
          [apply push_all_same; [done|by apply resolve_same]|].
        unfold Saga._startCompensate, bind. rewrite Hr, Hr'.
        destruct r; by eexists _, _, _, _, _.
    + apply lookup_ge_None in Ht. apply lookup_ge_None in Ht'.
      rewrite (execute_step_end type_error this o) by done.
      rewrite (execute_step_end type_error this o') by done.
      by eexists _, _, _, _, _.
Qed.
End Names.

(** ** Properties of [execute] and [_startCompensate] *)

Section Properties.
Context {T E W : Type}.
Variable type_error : E.

Implicit Types (this : loc) (o : SagaObject T E W) (m : machine T E W).
Implicit Types (args : T) (w : W) (t : ITransaction.t T E W).

(** C1. When the forward action at index [k] is the first to fail, with
    error [e], [execute] returns [err e]: the error of the result is the
    one raised by that forward action, whatever the compensate functions of
    the saga do (they are arbitrary here; what they throw never reaches the
    result). *)
Theorem execute_returns_forward_error this o fuel args m k e a w :
  heap m !! this = Some o ->
  length (_transactions o) <= fuel ->
  forward_pass (_transactions o) 0 args (world m) = FailedAt k e a w ->
  (Saga.execute type_error fuel this args m).1 = Normal (err e).
Proof.
  intros Hthis Hfuel Hpass.
  by rewrite (execute_failed_exact type_error this o fuel args m k e a w).
Qed.

(** C2. When the forward action at index [k] is the first to fail, what
    [execute] does is exactly this: the forward actions of the steps 0, 1,
    ..., k are applied in this order, each to the value left by the one
    before, the one at [k] being rejected; then the compensate functions of
    the steps k-1, k-2, ..., 0 are applied in this order, starting from the
    value on which the forward action at [k] failed. The calls, the world and
    the registrations that these functions produce are those of the machine
    after the run, and there is no other call: no forward action beyond [k],
    no compensate at [k] or beyond. Each call in the log is the function,
    forward or compensate, of the step at its index, applied to the argument
    of the call. *)
Theorem failure_call_order this o fuel args m k e a w :
  heap m !! this = Some o ->
  length (_transactions o) <= fuel ->
  forward_pass (_transactions o) 0 args (world m) = FailedAt k e a w ->
  Saga.execute type_error fuel this args m =
    (Normal (err e),
     Machine
       (push_all (trace_pushes (forward_trace (_transactions o) 0 args (world m)) ++
                  unwind_pushes
                    (compensation_pass (reverse (take k (_transactions o))) a w))
                 (heap m))
       (unwind_world (compensation_pass (reverse (take k (_transactions o))) a w))
       (calls m ++ trace_calls (forward_trace (_transactions o) 0 args (world m)) ++
          unwind_calls (compensation_pass (reverse (take k (_transactions o))) a w))) /\
  call_site <$> trace_calls (forward_trace (_transactions o) 0 args (world m)) =
    (fun j => (Execute, j)) <$> seq 0 (S k) /\
  call_site <$> unwind_calls (compensation_pass (reverse (take k (_transactions o))) a w) =
    (fun j => (Compensate, j)) <$> reverse (seq 0 k) /\
  (forall p c,
     trace_calls (forward_trace (_transactions o) 0 args (world m)) !! p = Some c ->
     exists t w',
       _transactions o !! p = Some t /\
       call_site c = (Execute, p) /\
       (ITransaction.execute t (call_args c) w').1.1 = call_settled c) /\
  (forall p c,
     unwind_calls (compensation_pass (reverse (take k (_transactions o))) a w) !! p = Some c ->
     exists t w',
       p < k /\ _transactions o !! (k - S p) = Some t /\
       call_site c = (Compensate, k - S p) /\
       (ITransaction.compensate t (call_args c) w').1.1 = call_settled c).
Proof.
  intros Hthis Hfuel Hpass.
  pose proof (forward_pass_failed _ _ _ _ _ _ _ _ Hpass) as (_ & t & w1 & regs & Ht & _).
  rewrite Nat.sub_0_r in Ht. pose proof (lookup_lt_Some _ _ _ Ht) as Hk.
  assert (Hlen : length (reverse (take k (_transactions o))) = k)
    by (rewrite length_reverse, length_take; lia).
  split_and!.
  - by apply execute_failed_exact.
  - destruct (forward_trace_failed _ _ _ _ _ _ _ _ Hpass) as (pre & -> & Hs & _).
    rewrite Nat.sub_0_r in Hs. by rewrite fmap_app, Hs, seq_S, fmap_app.
  - destruct (compensation_pass_calls (reverse (take k (_transactions o))) a w) as [Hs _].
    by rewrite Hlen in Hs.
  - intros p c Hc. apply (forward_trace_lookup _ _ _ _ _ _ Hc).
  - intros p c Hc.
    destruct (compensation_pass_lookup _ _ _ _ _ Hc) as (t' & w' & Ht' & Hsite & Hfun).
    rewrite Hlen in Hsite.
    pose proof (lookup_lt_Some _ _ _ Ht') as Hp. rewrite Hlen in Hp.
    exists t', w'. split_and!; [done| |done|done].
    rewrite reverse_lookup in Ht' by (rewrite length_take; lia).
    rewrite length_take, Nat.min_l in Ht' by lia.
    rewrite lookup_take_lt in Ht' by lia. done.
Qed.


(** C4. The compensation pass at index [j], entered with the value [args],
    when the compensate function of the step at [j] is rejected: the error
    is swallowed and the pass goes on exactly as the pass entered at [j-1]
    with the same [args] (the rejected call has not changed the threaded
    value); that pass applies the compensate functions of the steps j-1,
    ..., 0 in this order, starting from [args], calls every one of them, and
    [_startCompensate] returns [err] of the original error. *)
Theorem compensation_failure_swallowed this o j t args error m e' w1 regs :
  heap m !! this = Some o ->
  _transactions o !! j = Some t ->
  ITransaction.compensate t args (world m) = (Rejected e', w1, regs) ->
  Saga._startCompensate type_error this (S j) args error m =
    Saga._startCompensate type_error this j args error
      (Machine (push_all (resolve t <$> regs) (heap m)) w1
               (calls m ++ [Call Compensate j args (Rejected e')])) /\
  Saga._startCompensate type_error this (S j) args error m =
    (Normal (err error),
     Machine
       (push_all ((resolve t <$> regs) ++
                  unwind_pushes
                    (compensation_pass (reverse (take j (_transactions o))) args w1))
                 (heap m))
       (unwind_world (compensation_pass (reverse (take j (_transactions o))) args w1))
       (calls m ++ Call Compensate j args (Rejected e') ::
          unwind_calls (compensation_pass (reverse (take j (_transactions o))) args w1))) /\
  call_site <$>
    unwind_calls (compensation_pass (reverse (take j (_transactions o))) args w1) =
    (fun i => (Compensate, i)) <$> reverse (seq 0 j) /\
  forall c,
    unwind_calls (compensation_pass (reverse (take j (_transactions o))) args w1) !! 0 =
      Some c ->
    call_args c = args.
Proof.
  intros Hthis Ht Hrun. destruct m as [h w cs], o as [txs]. simpl in *.
  pose proof (lookup_lt_Some _ _ _ Ht) as Hj.
  assert (Hstep :
    Saga._startCompensate type_error this (S j) args error (Machine h w cs) =
    Saga._startCompensate type_error this j args error
      (Machine (push_all (resolve t <$> regs) h) w1
               (cs ++ [Call Compensate j args (Rejected e')]))).
  { unfold Saga._startCompensate, bind.
    by rewrite (compensate_step_call type_error this (MkSaga txs) h w cs j args t
                  (Rejected e') w1 regs Hthis Ht Hrun). }
  destruct (compensation_pass_calls (reverse (take j txs)) args w1) as (Hs & Hth & _).
  rewrite length_reverse, length_take, Nat.min_l in Hs by lia.
  split_and!.
  - exact Hstep.
  - rewrite Hstep. unfold Saga._startCompensate, bind.
    destruct (push_all_prefix (resolve t <$> regs) h this txs []) as [extra Hthis1];
      [by rewrite app_nil_r|].
    rewrite (compensate_exact type_error this txs j args _ w1 _ extra Hthis1) by lia.
    unfold ret. by rewrite push_all_app, <- app_assoc.
  - exact Hs.
  - intros c Hc.
    destruct (unwind_calls (compensation_pass (reverse (take j txs)) args w1))
      as [|c0 cs0]; [discriminate|].
    injection Hc as ->. by destruct Hth.
Qed.

(** C5. When the forward action of the step at index 0 fails with [e],
    [execute] returns [err e] and the only call it has made is that forward
    action: no compensate function is called. *)
Theorem first_step_failure this o fuel args m t e w' regs :
  heap m !! this = Some o ->
  _transactions o !! 0 = Some t ->
  ITransaction.execute t args (world m) = (Rejected e, w', regs) ->
  1 <= fuel ->
  Saga.execute type_error fuel this args m =
    (Normal (err e),
     Machine (push_all (resolve t <$> regs) (heap m)) w'
             (calls m ++ [Call Execute 0 args (Rejected e)])).
Proof.
  intros Hthis Ht Hrun Hfuel.
  destruct fuel as [|fuel]; [lia|]. destruct m as [h w cs]. simpl in *.
  unfold Saga.execute, bind.
  by rewrite (execute_step_rejected type_error this o h w cs fuel 0 args t e w' regs
                Hthis Ht Hrun).
Qed.
(** C6. On a saga without steps [execute] returns [ok] at once, for any
    initial value: the machine is as before, so the call log has no new
    entry, forward or compensate. *)
Theorem empty_saga this o fuel args m :
  heap m !! this = Some o ->
  _transactions o = [] ->
  Saga.execute type_error fuel this args m = (Normal (ok tt), m).
Proof.
  intros Hthis Hnil.
  unfold Saga.execute, bind.
  destruct fuel; cbn [Saga.execute_for]; unfold bind;
    rewrite (get_transactions_run type_error this m o) by done;
    by rewrite Hnil.
Qed.

Lemma addTransaction_run this o t m :
  heap m !! this = Some o ->
  Saga.addTransaction type_error this t m =
    (Normal this,
     Machine (<[this := MkSaga (_transactions o ++ [t])]> (heap m)) (world m) (calls m)).
Proof. intros H. unfold Saga.addTransaction. by rewrite H. Qed.

Lemma chain_run this ts : forall o m,
  heap m !! this = Some o ->
  chain type_error this ts m =
    (Normal this,
     Machine (<[this := MkSaga (_transactions o ++ ts)]> (heap m)) (world m) (calls m)).
Proof.
  induction ts as [|t ts IH]; intros o m Hthis.
  - simpl. unfold ret. rewrite app_nil_r. destruct o as [l]. simpl.
    rewrite insert_id by done. by destruct m.
  - cbn [chain]. unfold bind. rewrite (addTransaction_run this o) by done.
    rewrite (IH (MkSaga (_transactions o ++ [t]))) by (simpl; apply lookup_insert_eq).
    simpl. by rewrite insert_insert_eq, <- app_assoc.
Qed.

(** C8. [addTransaction] returns the reference it was called on and
    replaces the step list of that object by the old list followed by the
    new step, so the steps registered before keep their places; the rest of
    the machine is untouched. Chained calls, each made on what the previous
    one returned, therefore add their steps in call order to the same
    object. *)
Theorem addTransaction_appends this o t m :
  heap m !! this = Some o ->
  Saga.addTransaction type_error this t m =
    (Normal this,
     Machine (<[this := MkSaga (_transactions o ++ [t])]> (heap m)) (world m) (calls m)) /\
  forall ts,
    chain type_error this ts m =
      (Normal this,
       Machine (<[this := MkSaga (_transactions o ++ ts)]> (heap m)) (world m) (calls m)).
Proof.
  intros Hthis. split.
  - by apply addTransaction_run.
  - intros ts. by apply chain_run.
Qed.

(** A run on a saga none of whose steps registers a step on it: with enough
    iterations it returns a [Result] and the saga holds the same steps. *)
Lemma execute_quiet this o fuel args m :
  heap m !! this = Some o ->
  length (_transactions o) <= fuel ->
  Forall (quiet this) (_transactions o) ->
  exists r m',
    Saga.execute type_error fuel this args m = (Normal r, m') /\
    heap m' !! this = Some o.
Proof.
  intros Hthis Hfuel Hq.
  pose proof (forward_trace_quiet this _ 0 args (world m) Hq) as Hqf.
  destruct (forward_pass (_transactions o) 0 args (world m)) as [s w|k e a w] eqn:Hpass.
  - destruct (execute_completed_exact type_error this o fuel args m s w Hthis Hfuel Hpass Hqf)
      as [_ Hrun].
    eexists _, _. split; [exact Hrun|]. simpl. by rewrite push_all_other.
  - rewrite (execute_failed_exact type_error this o fuel args m k e a w Hthis Hfuel Hpass).
    eexists _, _. split; [reflexivity|]. simpl.
    rewrite push_all_other; [done|].
    apply Forall_app. split; [done|].
    apply compensation_pass_quiet, Forall_reverse, Forall_take, Hq.
Qed.

(** C9 (amended). [execute] does not change the step list of a saga none of
    whose steps calls [addTransaction] on it: after a run, successful or not,
    the saga holds the same steps as before, and a second run, on any other
    initial value, again leaves them in place. *)
Theorem execute_preserves_steps this o fuel args args2 m :
  heap m !! this = Some o ->
  length (_transactions o) <= fuel ->
  Forall (quiet this) (_transactions o) ->
  exists r m',
    Saga.execute type_error fuel this args m = (Normal r, m') /\
    heap m' !! this = Some o /\
    exists r2 m2,
      Saga.execute type_error fuel this args2 m' = (Normal r2, m2) /\
      heap m2 !! this = Some o.
Proof.
  intros Hthis Hfuel Hq.
  destruct (execute_quiet this o fuel args m) as (r & m' & Hrun & Hthis'); [done..|].
  destruct (execute_quiet this o fuel args2 m') as (r2 & m2 & Hrun2 & Hthis2); [done..|].
  by eexists r, m'; split_and!; [done..|]; eexists r2, m2.
Qed.

End Properties.

(** C7. The scenario: A (forward x+1, compensate x-1), B (forward x*2,
    compensate x/2), C (forward always fails with [e]), built by chained
    [addTransaction] calls on a new saga and executed on 3. The calls are: A
    forward on 3 giving 4, B forward on 4 giving 8, C forward on 8 rejected
    with [e], B compensate on 8 giving 4, A compensate on 4 (giving 3); the
    result is [err e]. *)
Theorem scenario_run (e : string) (undo : Scenario.action) (fuel : nat) :
  Scenario.run e undo (3 + fuel) Scenario.start =
    (Normal (err e),
     Machine {[ 0 := MkSaga [Scenario.A; Scenario.B; Scenario.C e undo] ]} tt
       [ Call Execute 0 3%Z (Fulfilled 4%Z);
         Call Execute 1 4%Z (Fulfilled 8%Z);
         Call Execute 2 8%Z (Rejected e);
         Call Compensate 1 8%Z (Fulfilled 4%Z);
         Call Compensate 0 4%Z (Fulfilled 3%Z) ]).
Proof. vm_compute. reflexivity. Qed.

(** ** Runs that change the step list *)



(** C9, counterexample. The saga built with the single step [grow], whose
    forward action registers the step [A] on the running saga: [execute]
    returns [ok] and the saga, which held [grow] before the run, holds
    [grow; A] after it. *)
Lemma execute_changes_steps :
  heap (Scenario.built [Scenario.grow]) !! 0 = Some (MkSaga [Scenario.grow]) /\
  Saga.execute Scenario.type_error 2 0 3%Z (Scenario.built [Scenario.grow]) =
    (Normal (ok tt),
     Machine {[ 0 := MkSaga [Scenario.grow; Scenario.A] ]} tt
       [ Call Execute 0 3%Z (Fulfilled 3%Z); Call Execute 1 3%Z (Fulfilled 4%Z) ]) /\
  heap (Saga.execute Scenario.type_error 2 0 3%Z (Scenario.built [Scenario.grow])).2 !! 0 <>
    heap (Scenario.built [Scenario.grow]) !! 0.
Proof.
  split_and!; [reflexivity|vm_compute; reflexivity|].
  intros H.
  apply (f_equal (fmap (fun o => length (_transactions o)))) in H.
  vm_compute in H. discriminate.
Qed.



(** ** Further properties of the class *)

Section Objects.
Context {T E W : Type}.
Variable type_error : E.

Implicit Types (this : loc) (o : SagaObject T E W) (m : machine T E W).
Implicit Types (args : T) (w : W) (t : ITransaction.t T E W).

Lemma fresh_not_allocated (h : gmap loc (SagaObject T E W)) :
  h !! fresh (dom h) = None.
Proof. apply not_elem_of_dom, is_fresh. Qed.

(** X2. Two sagas made by [Saga.new] are different objects with their own
    arrays: a step added to the first one is not in the second one, and the
    objects that existed before are unchanged. *)
Theorem new_sagas_independent t m :
  exists s1 s2 m',
    two_sagas type_error t m = (Normal (s1, s2), m') /\
    s1 <> s2 /\
    heap m' !! s1 = Some (MkSaga [t]) /\
    heap m' !! s2 = Some (MkSaga []) /\
    forall l o, heap m !! l = Some o -> heap m' !! l = Some o.
Proof.
  set (s1 := fresh (dom (heap m))).
  set (h1 := <[s1 := MkSaga []]> (heap m)).
  set (s2 := fresh (dom h1)).
  pose proof (fresh_not_allocated (heap m)) as Hf1. fold s1 in Hf1.
  pose proof (fresh_not_allocated h1) as Hf2. fold s2 in Hf2.
  assert (Hs1 : h1 !! s1 = Some (MkSaga [])) by apply lookup_insert_eq.
  assert (Hne : s1 <> s2) by (intros Heq; rewrite Heq in Hs1; congruence).
  exists s1, s2. eexists.
  unfold two_sagas, bind, Saga.new, Saga.addTransaction. simpl.
  fold s1. fold h1. fold s2.
  rewrite lookup_insert_ne, Hs1 by done.
  split; [reflexivity|]. simpl. split_and!; [done| | |].
  - apply lookup_insert_eq.
  - rewrite lookup_insert_ne by done. apply lookup_insert_eq.
  - intros l o Hl.
    assert (l <> s1) by (intros ->; congruence).
    assert (Hl1 : h1 !! l = Some o) by (unfold h1; by rewrite lookup_insert_ne).
    assert (l <> s2) by (intros ->; congruence).
    by rewrite !lookup_insert_ne.
Qed.
End Objects.

(** ** What a run calls, and with what *)

Section Runs.
Context {T E W : Type}.
Variable type_error : E.

Implicit Types (this : loc) (o : SagaObject T E W) (m : machine T E W).
Implicit Types (args : T) (w : W) (cs : list (call T E)).

(** X3. When every forward action of the run is fulfilled and none of them
    registers a step on the running saga, [execute] returns [ok]; its calls
    are those of the fold of the forward actions: the forward actions at 0,
    1, ..., n-1, each once and in this order, all fulfilled, and nothing
    else, so no compensate function is called. The world it leaves is the
    one the forward actions produce one after the other. *)
Theorem success_calls this o fuel args m s w :
  heap m !! this = Some o ->
  length (_transactions o) <= fuel ->
  forward_pass (_transactions o) 0 args (world m) = Completed s w ->
  Forall (fun p => p.1 <> this)
    (trace_pushes (forward_trace (_transactions o) 0 args (world m))) ->
  Saga.execute type_error fuel this args m =
    (Normal (ok tt),
     Machine (push_all (trace_pushes (forward_trace (_transactions o) 0 args (world m)))
                       (heap m))
             w
             (calls m ++ trace_calls (forward_trace (_transactions o) 0 args (world m)))) /\
  call_site <$> trace_calls (forward_trace (_transactions o) 0 args (world m)) =
    (fun j => (Execute, j)) <$> seq 0 (length (_transactions o)) /\
  Forall fulfilled (trace_calls (forward_trace (_transactions o) 0 args (world m))).
Proof.
  intros Hthis Hfuel Hpass Hq.
  destruct (execute_completed_exact type_error this o fuel args m s w Hthis Hfuel Hpass Hq)
    as [_ Hrun].
  destruct (forward_trace_completed _ _ _ _ _ _ Hpass) as (Hs & Hful & _).
  by split_and!.
Qed.

(** X4. The value threaded through a run: the first call of a run receives
    the initial value; every later call, forward or compensate, receives the
    value its predecessor was fulfilled with or, when the predecessor was
    rejected, the argument of the predecessor. So the first compensation
    receives the argument of the forward action that failed. This holds of
    every run, whatever the steps register and however long it runs. *)
Theorem run_threads_args this o fuel args m :
  heap m !! this = Some o ->
  exists cs,
    calls (Saga.execute type_error fuel this args m).2 = calls m ++ cs /\
    (forall c, cs !! 0 = Some c -> call_args c = args) /\
    (forall n c c', cs !! n = Some c -> cs !! S n = Some c' ->
       call_args c' =
         match call_settled c with
         | Fulfilled v => v
         | Rejected _ => call_args c
         end).
Proof.
  intros Hthis.
  destruct (execute_shape type_error this fuel args m o Hthis)
    as (r & h' & w' & cs & Heq & Hth & _).
  exists cs. rewrite Heq. split_and!; [done| |].
  - intros c Hc. destruct cs as [|c0 cs]; [discriminate|].
    injection Hc as ->. by destruct Hth.
  - intros n c c' Hc Hc'. apply (threaded_lookup args cs n c c' Hth Hc Hc').
Qed.


Lemma NoDup_sites (meth : method) (js : list nat) :
  NoDup js -> NoDup ((fun j => (meth, j)) <$> js).
Proof. intros H. by apply (NoDup_fmap_2 _). Qed.

(** X6. In one run no function is called twice: each forward action and
    each compensate function appears at most once in the calls of the run. *)
Theorem no_function_called_twice this o fuel args m :
  heap m !! this = Some o ->
  exists cs,
    calls (Saga.execute type_error fuel this args m).2 = calls m ++ cs /\
    NoDup (call_site <$> cs).
Proof.
  intros Hthis.
  destruct (execute_shape type_error this fuel args m o Hthis)
    as (r & h' & w' & cs & Heq & _ & Hshape).
  exists cs. rewrite Heq. split; [done|].
  destruct r as [[[]|e]|x|].
  - destruct Hshape as (o' & _ & -> & _). apply NoDup_sites, NoDup_seq.
  - destruct Hshape as (k & a & pre & post & -> & Hs1 & _ & Hs2).
    rewrite fmap_app, fmap_cons, Hs1, Hs2.
    change (call_site (Call Execute k a (Rejected e))) with (Execute, k).
    assert (Hcat : forall l : list (method * nat),
      ((fun j => (Execute, j)) <$> seq 0 k) ++ (Execute, k) :: l =
      ((fun j => (Execute, j)) <$> seq 0 (S k)) ++ l).
    { intros l. by rewrite seq_S, fmap_app, <- app_assoc. }
    rewrite Hcat. apply NoDup_app. split_and!.
    + apply NoDup_sites, NoDup_seq.
    + intros x Hx Hx'.
      apply list_elem_of_fmap in Hx as (j & -> & _).
      apply list_elem_of_fmap in Hx' as (j' & Hj & _). discriminate.
    + apply NoDup_sites. rewrite reverse_Permutation. apply NoDup_seq.
  - done.
  - destruct Hshape as (n & -> & _). apply NoDup_sites, NoDup_seq.
Qed.

(** X7. A compensate function is only called for a step whose forward
    action was called, and fulfilled, earlier in the same run. *)
Theorem compensated_steps_had_succeeded this o fuel args m :
  heap m !! this = Some o ->
  exists cs,
    calls (Saga.execute type_error fuel this args m).2 = calls m ++ cs /\
    forall n c,
      cs !! n = Some c -> call_method c = Compensate ->
      exists n' c',
        n' < n /\ cs !! n' = Some c' /\
        call_site c' = (Execute, call_index c) /\ fulfilled c'.
Proof.
  intros Hthis.
  destruct (execute_shape type_error this fuel args m o Hthis)
    as (r & h' & w' & cs & Heq & _ & Hshape).
  exists cs. rewrite Heq. split; [done|].
  assert (Hforward : forall n0, call_site <$> cs = (fun j => (Execute, j)) <$> seq 0 n0 ->
    forall n c, cs !! n = Some c -> call_method c = Compensate -> False).
  { intros n0 Hs n c Hc Hm.
    destruct (sites_lookup _ _ _ _ _ Hs Hc) as (j & _ & Hj).
    injection Hj as Hj _. congruence. }
  destruct r as [[[]|e]|x|].
  - destruct Hshape as (o' & _ & Hs & _). intros n c Hc Hm.
    destruct (Hforward _ Hs n c Hc Hm).
  - destruct Hshape as (k & a & pre & post & -> & Hs1 & Hful & Hs2).
    assert (Hlen : length pre = k) by (by rewrite (sites_length _ _ _ Hs1), length_seq).
    intros n c Hc Hm.
    destruct (decide (n < length pre)) as [Hn|Hn].
    { rewrite lookup_app_l in Hc by done.
      destruct (sites_lookup _ _ _ _ _ Hs1 Hc) as (j & _ & Hj).
      injection Hj as Hj _. congruence. }
    rewrite lookup_app_r in Hc by lia.
    destruct (n - length pre) as [|p] eqn:Hp.
    { injection Hc as <-. discriminate. }
    simpl in Hc.
    destruct (sites_lookup _ _ _ _ _ Hs2 Hc) as (j & Hj & Hsite).
    assert (Hjk : j < k).
    { apply list_elem_of_lookup_2 in Hj. rewrite elem_of_reverse, elem_of_seq in Hj. lia. }
    destruct (lookup_lt_is_Some_2 pre j) as [c' Hc']; [lia|].
    exists j, c'. split_and!.
    + lia.
    + by rewrite lookup_app_l by lia.
    + destruct (sites_lookup _ _ _ _ _ Hs1 Hc') as (j' & Hj' & ->).
      apply lookup_seq in Hj' as [-> _].
      injection Hsite as _ ->. done.
    + by apply (Forall_lookup_1 _ _ _ _ Hful Hc').
  - done.
  - destruct Hshape as (n0 & Hs & _). intros n c Hc Hm.
    destruct (Hforward _ Hs n c Hc Hm).
Qed.

(** X8. [_startCompensate] called with any index, also one beyond the end
    of the array, returns [err] of the error it was given, and what it does
    is the fold of the compensate functions of the existing steps below that
    index, from the last one down to the first: for a missing element the
    read of [compensate] throws inside [try] and is swallowed, and no call is
    made for it. *)
Theorem compensate_beyond_array this o idx args error m :
  heap m !! this = Some o ->
  Saga._startCompensate type_error this idx args error m =
    (Normal (err error),
     Machine
       (push_all (unwind_pushes
                    (compensation_pass (reverse (take idx (_transactions o))) args (world m)))
                 (heap m))
       (unwind_world
          (compensation_pass (reverse (take idx (_transactions o))) args (world m)))
       (calls m ++
        unwind_calls
          (compensation_pass (reverse (take idx (_transactions o))) args (world m)))) /\
  call_site <$>
    unwind_calls (compensation_pass (reverse (take idx (_transactions o))) args (world m)) =
    (fun j => (Compensate, j)) <$> reverse (seq 0 (idx `min` length (_transactions o))).
Proof.
  intros Hthis. destruct m as [h w cs], o as [txs]. simpl in *. split.
  - unfold Saga._startCompensate, bind.
    by rewrite (compensate_exact_any type_error this txs idx args h w cs Hthis).
  - destruct (compensation_pass_calls (reverse (take idx txs)) args w) as [Hs _].
    by rewrite length_reverse, length_take in Hs.
Qed.

(** X9. The [name] of a transaction is never used: two sagas whose steps
    have, position by position, the same [execute] and [compensate] functions
    give, from the same world and on the same initial value, the same
    result, the same world and the same calls, whatever the names are and
    however many iterations the run is given; the heaps they leave hold the
    same sagas up to names. *)
Theorem names_irrelevant this o o' fuel args h w cs :
  Forall2 same_functions (_transactions o) (_transactions o') ->
  exists r h1 h1' w1 cs1,
    Saga.execute type_error fuel this args (Machine (<[this := o]> h) w cs) =
      (r, Machine h1 w1 cs1) /\
    Saga.execute type_error fuel this args (Machine (<[this := o']> h) w cs) =
      (r, Machine h1' w1 cs1) /\
    same_sagas h1 h1'.
Proof.
  intros Hsame.
  destruct (execute_for_same type_error this fuel 0 args
              (<[this := o]> h) (<[this := o']> h) w cs)
    as (r & h1 & h1' & w1 & cs1 & Hr & Hr' & Hsame1); [by apply same_sagas_insert|].
  unfold Saga.execute, bind. rewrite Hr, Hr'.
  destruct r as [[a|r]| |]; by eexists _, _, _, _, _.
Qed.

(** X10. [addTransaction] followed by [execute]: when the forward actions of
    the steps already in the saga are all fulfilled, leave the value [s] and
    the world [w], and register nothing on the running saga, the added step
    runs last, on [s] and [w]. If its forward action is rejected with [e],
    the run returns [err e] and then applies the compensate functions of all
    the earlier steps, from the last one down to the first, starting from
    [s]. If it is fulfilled and registers nothing on the running saga, the
    run returns [ok] after this call and leaves the world of the added
    step. *)
Theorem added_step_runs_last this o t fuel args m s w :
  heap m !! this = Some o ->
  S (length (_transactions o)) <= fuel ->
  forward_pass (_transactions o) 0 args (world m) = Completed s w ->
  Forall (fun p => p.1 <> this)
    (trace_pushes (forward_trace (_transactions o) 0 args (world m))) ->
  match ITransaction.execute t s w with
  | (Fulfilled v, w', regs) =>
      Forall (fun r => target r <> this) regs ->
      add_then_execute type_error fuel this t args m =
        (Normal (ok tt),
         Machine
           (push_all
              (trace_pushes (forward_trace (_transactions o) 0 args (world m)) ++
               (resolve t <$> regs))
              (<[this := MkSaga (_transactions o ++ [t])]> (heap m)))
           w'
           (calls m ++ trace_calls (forward_trace (_transactions o) 0 args (world m)) ++
              [Call Execute (length (_transactions o)) s (Fulfilled v)]))
  | (Rejected e, w', regs) =>
      add_then_execute type_error fuel this t args m =
        (Normal (err e),
         Machine
           (push_all
              (trace_pushes (forward_trace (_transactions o) 0 args (world m)) ++
               (resolve t <$> regs) ++
               unwind_pushes (compensation_pass (reverse (_transactions o)) s w'))
              (<[this := MkSaga (_transactions o ++ [t])]> (heap m)))
           (unwind_world (compensation_pass (reverse (_transactions o)) s w'))
           (calls m ++ trace_calls (forward_trace (_transactions o) 0 args (world m)) ++
              Call Execute (length (_transactions o)) s (Rejected e) ::
              unwind_calls (compensation_pass (reverse (_transactions o)) s w')))
  end.
Proof.
  intros Hthis Hfuel Hpass Hq.
  unfold add_then_execute, bind.
  rewrite (addTransaction_run type_error this o t m Hthis).
  set (o1 := MkSaga (_transactions o ++ [t])).
  set (m1 := Machine (<[this := o1]> (heap m)) (world m) (calls m)).
  assert (Hthis1 : heap m1 !! this = Some o1) by apply lookup_insert_eq.
  assert (Hfuel1 : length (_transactions o1) <= fuel)
    by (simpl; rewrite length_app; simpl; lia).
  pose proof (forward_trace_app (_transactions o) [t] 0 args (world m) s w Hpass) as Htrace.
  pose proof (forward_pass_app (_transactions o) [t] 0 args (world m)) as Hpass1.
  rewrite Hpass in Hpass1. cbn [forward_pass forward_trace] in Htrace, Hpass1.
  destruct (ITransaction.execute t s w) as [[[v|e] w'] regs].
  - intros Hregs. cbn [trace_calls trace_pushes] in Htrace.
    assert (Hq1 : Forall (fun p => p.1 <> this)
              (trace_pushes (forward_trace (_transactions o1) 0 args (world m1)))).
    { simpl. rewrite Htrace. cbn [trace_pushes]. rewrite app_nil_r.
      apply Forall_app. split; [done|].
      apply Forall_fmap. eapply Forall_impl; [exact Hregs|].
      intros r Hr. simpl. by rewrite resolve_target. }
    destruct (execute_completed_exact type_error this o1 fuel args m1 v w'
                Hthis1 Hfuel1 Hpass1 Hq1) as [_ Hrun].
    rewrite Hrun. simpl. rewrite Htrace. cbn [trace_calls trace_pushes].
    by rewrite app_nil_r.
  - cbn [trace_calls trace_pushes] in Htrace.
    rewrite (execute_failed_exact type_error this o1 fuel args m1
               (length (_transactions o)) e s w' Hthis1 Hfuel1 Hpass1).
    simpl. rewrite Htrace. cbn [trace_calls trace_pushes].
    rewrite take_app_length, app_nil_r.
    by rewrite <- !app_assoc.
Qed.
End Runs.

(** ** Concrete instances *)

Lemma execute_returns_forward_error_witness :
  heap (Scenario.built Scenario.stuck) !! 0 = Some (MkSaga Scenario.stuck) /\
  length Scenario.stuck <= 3 /\
  forward_pass Scenario.stuck 0 3%Z tt = FailedAt 2 "E"%string 8%Z tt /\
  (Saga.execute Scenario.type_error 3 0 3%Z (Scenario.built Scenario.stuck)).1 =
    Normal (err "E"%string).
Proof.
  split_and!; [reflexivity | simpl; lia | reflexivity |].
  apply (execute_returns_forward_error Scenario.type_error 0 (MkSaga Scenario.stuck)
           3 3%Z (Scenario.built Scenario.stuck) 2 "E"%string 8%Z tt);
    [reflexivity | simpl; lia | reflexivity].
Defined.

Lemma failure_call_order_witness :
  heap (Scenario.built Scenario.stuck) !! 0 = Some (MkSaga Scenario.stuck) /\
  length Scenario.stuck <= 3 /\
  forward_pass Scenario.stuck 0 3%Z tt = FailedAt 2 "E"%string 8%Z tt /\
  Saga.execute Scenario.type_error 3 0 3%Z (Scenario.built Scenario.stuck) =
    (Normal (err "E"%string),
     Machine {[ 0 := MkSaga Scenario.stuck ]} tt
       [ Call Execute 0 3%Z (Fulfilled 4%Z);
         Call Execute 1 4%Z (Fulfilled 8%Z);
         Call Execute 2 8%Z (Rejected "E"%string);
         Call Compensate 1 8%Z (Rejected "cannot undo B"%string);
         Call Compensate 0 8%Z (Fulfilled 7%Z) ]).
Proof.
  split_and!; [reflexivity | simpl; lia | reflexivity |].
  destruct (failure_call_order Scenario.type_error 0 (MkSaga Scenario.stuck)
              3 3%Z (Scenario.built Scenario.stuck) 2 "E"%string 8%Z tt) as [H _];
    [reflexivity | simpl; lia | reflexivity |].
  rewrite H. vm_compute. reflexivity.
Defined.


Lemma compensation_failure_swallowed_witness :
  heap (Scenario.built Scenario.stuck) !! 0 = Some (MkSaga Scenario.stuck) /\
  Scenario.stuck !! 1 = Some Scenario.B_stuck /\
  ITransaction.compensate Scenario.B_stuck 8%Z tt =
    (Rejected "cannot undo B"%string, tt, []) /\
  Saga._startCompensate Scenario.type_error 0 2 8%Z "E"%string
    (Scenario.built Scenario.stuck) =
    (Normal (err "E"%string),
     Machine {[ 0 := MkSaga Scenario.stuck ]} tt
       [ Call Compensate 1 8%Z (Rejected "cannot undo B"%string);
         Call Compensate 0 8%Z (Fulfilled 7%Z) ]).
Proof.
  split_and!; [reflexivity..|].
  destruct (compensation_failure_swallowed Scenario.type_error 0 (MkSaga Scenario.stuck)
              1 Scenario.B_stuck 8%Z "E"%string (Scenario.built Scenario.stuck)
              "cannot undo B"%string tt []) as (_ & H & _);
    [reflexivity..|].
  rewrite H. vm_compute. reflexivity.
Defined.

Lemma first_step_failure_witness :
  Saga.execute Scenario.type_error 1 0 3%Z (Scenario.built Scenario.fails_first) =
    (Normal (err "E"%string),
     Machine (push_all [] (heap (Scenario.built Scenario.fails_first))) tt
             (calls (Scenario.built Scenario.fails_first) ++
              [Call Execute 0 3%Z (Rejected "E"%string)])).
Proof.
  apply (first_step_failure Scenario.type_error 0 (MkSaga Scenario.fails_first)
           1 3%Z (Scenario.built Scenario.fails_first)
           (Scenario.C "E" Scenario.keep) "E"%string tt []);
    [reflexivity | reflexivity | reflexivity | lia].
Defined.

Lemma empty_saga_witness :
  Saga.execute Scenario.type_error 0 0 3%Z (Scenario.built []) =
    (Normal (ok tt), Scenario.built []).
Proof.
  apply (empty_saga Scenario.type_error 0 (MkSaga []) 0 3%Z (Scenario.built []));
    reflexivity.
Defined.

Lemma addTransaction_appends_witness :
  Saga.addTransaction Scenario.type_error 0 Scenario.B (Scenario.built [Scenario.A]) =
    (Normal 0,
     Machine (<[0 := MkSaga ([Scenario.A] ++ [Scenario.B])]>
                (heap (Scenario.built [Scenario.A]))) tt []) /\
  forall ts,
    chain Scenario.type_error 0 ts (Scenario.built [Scenario.A]) =
      (Normal 0,
       Machine (<[0 := MkSaga ([Scenario.A] ++ ts)]>
                  (heap (Scenario.built [Scenario.A]))) tt []).
Proof.
  apply (addTransaction_appends Scenario.type_error 0 (MkSaga [Scenario.A])
           Scenario.B (Scenario.built [Scenario.A])).
  reflexivity.
Defined.

Lemma execute_preserves_steps_witness :
  exists r m',
    Saga.execute Scenario.type_error 3 0 3%Z (Scenario.built Scenario.plain) =
      (Normal r, m') /\
    heap m' !! 0 = Some (MkSaga Scenario.plain) /\
    exists r2 m2,
      Saga.execute Scenario.type_error 3 0 10%Z m' = (Normal r2, m2) /\
      heap m2 !! 0 = Some (MkSaga Scenario.plain).
Proof.
  apply (execute_preserves_steps Scenario.type_error 0 (MkSaga Scenario.plain)
           3 3%Z 10%Z (Scenario.built Scenario.plain));
    [reflexivity | simpl; lia | repeat constructor].
Defined.


(** *** Instances of the further properties *)

Lemma success_calls_witness :
  Saga.execute Scenario.type_error 2 0 3%Z (Scenario.built Scenario.forward_only) =
    (Normal (ok tt),
     Machine {[ 0 := MkSaga Scenario.forward_only ]} tt
       [ Call Execute 0 3%Z (Fulfilled 4%Z); Call Execute 1 4%Z (Fulfilled 8%Z) ]).
Proof.
  destruct (success_calls Scenario.type_error 0 (MkSaga Scenario.forward_only)
              2 3%Z (Scenario.built Scenario.forward_only) 8%Z tt) as [H _];
    [reflexivity | simpl; lia | reflexivity | vm_compute; constructor |].
  rewrite H. vm_compute. reflexivity.
Defined.

Lemma run_threads_args_witness :
  exists cs,
    calls (Saga.execute Scenario.type_error 3 0 3%Z (Scenario.built Scenario.stuck)).2 =
      calls (Scenario.built Scenario.stuck) ++ cs /\
    (forall c, cs !! 0 = Some c -> call_args c = 3%Z) /\
    (forall n c c', cs !! n = Some c -> cs !! S n = Some c' ->
       call_args c' =
         match call_settled c with
         | Fulfilled v => v
         | Rejected _ => call_args c
         end).
Proof.
  apply (run_threads_args Scenario.type_error 0 (MkSaga Scenario.stuck)
           3 3%Z (Scenario.built Scenario.stuck)).
  reflexivity.
Defined.


Lemma no_function_called_twice_witness :
  exists cs,
    calls (Saga.execute Scenario.type_error 3 0 3%Z (Scenario.built Scenario.stuck)).2 =
      calls (Scenario.built Scenario.stuck) ++ cs /\
    NoDup (call_site <$> cs).
Proof.
  apply (no_function_called_twice Scenario.type_error 0 (MkSaga Scenario.stuck)
           3 3%Z (Scenario.built Scenario.stuck)).
  reflexivity.
Defined.

Lemma compensated_steps_had_succeeded_witness :
  exists cs,
    calls (Saga.execute Scenario.type_error 3 0 3%Z (Scenario.built Scenario.stuck)).2 =
      calls (Scenario.built Scenario.stuck) ++ cs /\
    forall n c,
      cs !! n = Some c -> call_method c = Compensate ->
      exists n' c',
        n' < n /\ cs !! n' = Some c' /\
        call_site c' = (Execute, call_index c) /\ fulfilled c'.
Proof.
  apply (compensated_steps_had_succeeded Scenario.type_error 0 (MkSaga Scenario.stuck)
           3 3%Z (Scenario.built Scenario.stuck)).
  reflexivity.
Defined.

Lemma compensate_beyond_array_witness :
  Saga._startCompensate Scenario.type_error 0 5 8%Z "E"%string
    (Scenario.built Scenario.stuck) =
    (Normal (err "E"%string),
     Machine {[ 0 := MkSaga Scenario.stuck ]} tt
       [ Call Compensate 2 8%Z (Fulfilled 8%Z);
         Call Compensate 1 8%Z (Rejected "cannot undo B"%string);
         Call Compensate 0 8%Z (Fulfilled 7%Z) ]).
Proof.
  destruct (compensate_beyond_array Scenario.type_error 0 (MkSaga Scenario.stuck)
              5 8%Z "E"%string (Scenario.built Scenario.stuck)) as [H _];
    [reflexivity|].
  rewrite H. vm_compute. reflexivity.
Defined.

Lemma names_irrelevant_witness :
  exists r h1 h1' w1 cs1,
    Saga.execute Scenario.type_error 3 0 3%Z
      (Machine (<[0 := MkSaga Scenario.stuck]> ∅) tt []) =
      (r, Machine h1 w1 cs1) /\
    Saga.execute Scenario.type_error 3 0 3%Z
      (Machine (<[0 := MkSaga Scenario.stuck_renamed]> ∅) tt []) =
      (r, Machine h1' w1 cs1) /\
    same_sagas h1 h1'.
Proof.
  apply (names_irrelevant Scenario.type_error 0
           (MkSaga Scenario.stuck) (MkSaga Scenario.stuck_renamed)).
  repeat constructor.
Defined.

Lemma added_step_runs_last_witness :
  add_then_execute Scenario.type_error 3 0 (Scenario.C "E" Scenario.keep) 3%Z
    (Scenario.built Scenario.forward_only) =
    (Normal (err "E"%string),
     Machine {[ 0 := MkSaga (Scenario.forward_only ++ [Scenario.C "E" Scenario.keep]) ]} tt
       [ Call Execute 0 3%Z (Fulfilled 4%Z);
         Call Execute 1 4%Z (Fulfilled 8%Z);
         Call Execute 2 8%Z (Rejected "E"%string);
         Call Compensate 1 8%Z (Fulfilled 4%Z);
         Call Compensate 0 4%Z (Fulfilled 3%Z) ]).
Proof.
  pose proof (added_step_runs_last Scenario.type_error 0 (MkSaga Scenario.forward_only)
                (Scenario.C "E" Scenario.keep) 3 3%Z
                (Scenario.built Scenario.forward_only) 8%Z tt) as H.
  simpl in H. rewrite H; [vm_compute; reflexivity | reflexivity | lia | reflexivity
                          | vm_compute; constructor].
Defined.
